(** * The email triage engine of [index.js], embedded in Rocq

    The program polls a Gmail mailbox, admits unread messages by subject
    prefix or by membership of their thread in [ongoingThreads], asks a
    language model to classify the body, and either replies with a
    clarification question (tracking the thread) or considers the thread
    resolved (dropping it), then marks the message read.

    Every asynchronous function of the source is a tree of operations
    ([prog]): a node is a call on the outside world (Gmail, the model), a
    synchronous access to the shared [ongoingThreads] map, or a console
    line.  A tree is run either alone ([exec]) or as one task of the
    concurrent batch of a polling cycle ([pollEmails]), where a schedule
    decides which suspended task resumes next. *)

From Stdlib Require Import ZArith String Ascii List.
From stdpp Require Import base option list strings gmap.

Local Open Scope Z_scope.

(** ** Data model *)

(** A raw Gmail message, as [gmail.users.messages.get] returns it with
    [format: "full"].  A field that JavaScript may find [undefined] is an
    [option]. *)

Record header := Header { h_name : string; h_value : string }.

Record partBody := PartBody {
  b_data : option string;
  b_attachmentId : option string
}.

Record part := Part {
  p_mimeType : string;
  p_filename : option string;
  p_body : option partBody
}.

Record payload := Payload {
  pl_headers : list header;
  pl_parts : option (list part);
  pl_body : option partBody
}.

Record message := Message {
  m_id : string;
  m_threadId : string;
  m_payload : payload
}.

(** An entry of the listing [gmail.users.messages.list] returns. *)
Record messageRef := MessageRef { r_id : string; r_threadId : string }.

Record attachment := Attachment {
  a_filename : string;
  a_mimeType : string;
  a_data : string
}.

(** The object [extractEmail] returns; [e_headers] is the JavaScript object
    [headers], keyed by header name. *)
Record Email := MkEmail {
  e_id : string;
  e_threadId : string;
  e_headers : gmap string string;
  e_body : string;
  e_attachments : list attachment
}.

(** The value [ongoingThreads] keeps per thread. *)
Record threadRecord := ThreadRecord { lastProcessedEmailId : string }.

(** [ongoingThreads]: threadId -> { lastProcessedEmailId }. *)
Abbreviation store := (gmap string threadRecord).

(** What a rejected promise or a [throw] carries. *)
Inductive error : Type :=
| TypeError
| Rejected (reason : string).

Abbreviation result A := (sum error A).

(** What [console.log] and [console.error] print, argument by argument. *)
Inductive logArg : Type :=
| LStr (s : string)
| LStrs (l : list string)
| LErr (e : error).

(** ** Operations *)

(** The calls the program makes, indexed by what they answer.  The first six
    and [Yield] suspend the calling task ([await]); the others are
    synchronous.  The constant [userId: "me"] of the Gmail calls is left
    out. *)
Inductive op : Type -> Type :=
| MessagesList (q : string) (maxResults : Z) : op (option (list messageRef))
| MessagesGet (id : string) (format : string) : op message
| AttachmentsGet (messageId id : string) : op string
| ModelInvoke (system human : string) : op string
| MessagesSend (raw threadId : string) : op unit
| MessagesModify (id : string) (removeLabelIds : list string) : op unit
| Yield : op unit
| ThreadsHas (threadId : string) : op bool
| ThreadsSet (threadId : string) (r : threadRecord) : op unit
| ThreadsDelete (threadId : string) : op unit
| ConsoleLog (args : list logArg) : op unit
| ConsoleError (args : list logArg) : op unit.

Definition is_async {R} (o : op R) : bool :=
  match o with
  | MessagesList _ _ | MessagesGet _ _ | AttachmentsGet _ _
  | ModelInvoke _ _ | MessagesSend _ _ | MessagesModify _ _ | Yield => true
  | _ => false
  end.

(** An operation of any answer type, as traces record it. *)
Inductive anyop : Type :=
| Op (R : Type) (o : op R).
Arguments Op {R} o.

(** Asynchronous code: return, throw, or perform an operation and go on with
    its outcome. *)
Inductive prog (A : Type) : Type :=
| Ret (a : A)
| Throw (e : error)
| Vis (R : Type) (o : op R) (k : result R -> prog A).
Arguments Ret {A} a.
Arguments Throw {A} e.
Arguments Vis {A R} o k.

Fixpoint bind {A B} (p : prog A) (f : A -> prog B) : prog B :=
  match p with
  | Ret a => f a
  | Throw e => Throw e
  | Vis o k => Vis o (fun r => bind (k r) f)
  end.

(** [try { p } catch (err) { h err }] *)
Fixpoint try_catch {A} (p : prog A) (h : error -> prog A) : prog A :=
  match p with
  | Ret a => Ret a
  | Throw e => h e
  | Vis o k => Vis o (fun r => try_catch (k r) h)
  end.

(** [await o(...)] on a call of the outside world, and a synchronous call:
    a failure is thrown at the caller. *)
Definition call {R} (o : op R) : prog R :=
  Vis o (fun r => match r with inl e => Throw e | inr v => Ret v end).

(** [await f(...)] on an asynchronous function of the program: the body of
    [f] runs, and the caller resumes one tick after [f] settles. *)
Fixpoint await {A} (p : prog A) : prog A :=
  match p with
  | Ret a => Vis Yield (fun _ => Ret a)
  | Throw e => Vis Yield (fun _ => Throw e)
  | Vis o k => Vis o (fun r => await (k r))
  end.

Declare Scope prog_scope.
Delimit Scope prog_scope with prog.
Notation "x <- p ;; q" := (bind p (fun x => q))
  (at level 100, p at next level, right associativity) : prog_scope.
Notation "p ;;; q" := (bind p (fun _ => q))
  (at level 100, right associativity) : prog_scope.
Local Open Scope prog_scope.

(** ** JavaScript helpers *)

Definition nl : string := String (ascii_of_nat 10) EmptyString.

(** [s.startsWith(p)] *)
Definition startsWith (s p : string) : bool := String.prefix p s.

Definition lower_ascii (c : ascii) : ascii :=
  let n := nat_of_ascii c in
  if (Nat.leb 65 n && Nat.leb n 90)%bool then ascii_of_nat (n + 32) else c.

(** [s.toLowerCase()], on the ASCII letters: no other character lowers to a
    letter of ["message-id"], the only string the program compares with. *)
Fixpoint toLowerCase (s : string) : string :=
  match s with
  | EmptyString => EmptyString
  | String c r => String (lower_ascii c) (toLowerCase r)
  end.

(** [arr.find(f)] *)
Fixpoint find_first {A} (f : A -> bool) (l : list A) : option A :=
  match l with
  | [] => None
  | x :: r => if f x then Some x else find_first f r
  end.

(** [arr.includes(x)] on strings *)
Definition includes (l : list string) (x : string) : bool :=
  existsb (String.eqb x) l.

(** [x || ""] on a string that may be [undefined]: the empty string is falsy
    too. *)
Definition or_empty (x : option string) : string :=
  match x with Some s => s | None => EmptyString end.

(** Truthiness of a string that may be [undefined]. *)
Definition truthy (x : option string) : bool :=
  match x with
  | Some s => negb (String.eqb s EmptyString)
  | None => false
  end.

(** [`${x}`] on a value that may be [undefined], and on one that may be
    [null]. *)
Definition show_undefined (x : option string) : string :=
  match x with Some s => s | None => "undefined"%string end.
Definition show_null (x : option string) : string :=
  match x with Some s => s | None => "null"%string end.

(** [s.replace(/c/g, d)] for a single character [c]. *)
Fixpoint replace_all (c d : ascii) (s : string) : string :=
  match s with
  | EmptyString => EmptyString
  | String x r => String (if Ascii.eqb x c then d else x) (replace_all c d r)
  end.

Fixpoint drop_leading (c : ascii) (l : list ascii) : list ascii :=
  match l with
  | x :: r => if Ascii.eqb x c then drop_leading c r else l
  | [] => []
  end.

(** [s.replace(/=+$/, "")] *)
Definition strip_trailing (c : ascii) (s : string) : string :=
  string_of_list_ascii
    (rev (drop_leading c (rev (list_ascii_of_string s)))).

(** ** The Node runtime and the outside world *)

(** The two uses of [Buffer]: [Buffer.from(s).toString("base64")] and
    [Buffer.from(s, "base64").toString("utf-8")]. *)
Record runtime := Runtime {
  toBase64 : string -> string;
  fromBase64 : string -> string
}.

(** How the outside world settles each call: [inl] is a rejected promise. *)
Record world := World {
  on_list : string -> Z -> result (option (list messageRef));
  on_get : string -> string -> result message;
  on_attachment : string -> string -> result string;
  on_invoke : string -> string -> result string;
  on_send : string -> string -> result unit;
  on_modify : string -> list string -> result unit
}.

(** ** [extractEmail] *)

(** [const decodeBase64 = (data) => Buffer.from(data, "base64").toString("utf-8")];
    [Buffer.from(undefined, ...)] throws a TypeError. *)
Definition decodeBase64 (rt : runtime) (data : option string) : prog string :=
  match data with
  | Some d => Ret (fromBase64 rt d)
  | None => Throw TypeError
  end.

(** The header names [extractEmail] keeps. *)
Definition keptHeaders : list string :=
  ["From"; "To"; "Subject"; "Date"]%string.

(** The [forEach] over [payload.headers]: a later header of the same name
    overwrites an earlier one. *)
Definition extractHeaders (hs : list header) : gmap string string :=
  fold_left
    (fun headers h =>
       if includes keptHeaders (h_name h)
       then <[h_name h := h_value h]> headers
       else headers)
    hs ∅.

(** [x.body.data]: reading [data] off an [undefined] body throws. *)
Definition bodyData (b : option partBody) : prog (option string) :=
  match b with
  | Some b => Ret (b_data b)
  | None => Throw TypeError
  end.

Definition isText (p : part) : bool :=
  (String.eqb (p_mimeType p) "text/plain"
   || String.eqb (p_mimeType p) "text/html")%bool.

(** The [forEach] over [payload.parts] that builds [body]. *)
Fixpoint extractBodyParts (rt : runtime) (parts : list part) (body : string)
  : prog string :=
  match parts with
  | [] => Ret body
  | part :: rest =>
      if isText part then
        d <- bodyData (p_body part) ;;
        s <- decodeBase64 rt d ;;
        extractBodyParts rt rest (body +:+ s)
      else extractBodyParts rt rest body
  end.

Definition extractBody (rt : runtime) (pl : payload) : prog string :=
  match pl_parts pl with
  | Some parts => extractBodyParts rt parts EmptyString
  | None => d <- bodyData (pl_body pl) ;; decodeBase64 rt d
  end.

(** [part.filename && part.body && part.body.attachmentId]: the filename and
    attachment id of a part that carries an attachment. *)
Definition attachmentRef (p : part) : option (string * string) :=
  if truthy (p_filename p) then
    match p_body p with
    | Some b =>
        if truthy (b_attachmentId b)
        then Some (or_empty (p_filename p), or_empty (b_attachmentId b))
        else None
    | None => None
    end
  else None.

(** The [for ... of] loop over [payload.parts]: one awaited fetch after the
    other, the first failure leaves the loop and the function. *)
Fixpoint fetchAttachments (messageId : string) (parts : list part)
    (attachments : list attachment) : prog (list attachment) :=
  match parts with
  | [] => Ret attachments
  | part :: rest =>
      match attachmentRef part with
      | Some (filename, aid) =>
          d <- call (AttachmentsGet messageId aid) ;;
          fetchAttachments messageId rest
            (attachments ++ [Attachment filename (p_mimeType part) d])
      | None => fetchAttachments messageId rest attachments
      end
  end.

Definition extractEmail (rt : runtime) (message : message) : prog Email :=
  let payload := m_payload message in
  let headers := extractHeaders (pl_headers payload) in
  body <- extractBody rt payload ;;
  attachments <-
    match pl_parts payload with
    | Some parts => fetchAttachments (m_id message) parts []
    | None => Ret []
    end ;;
  Ret (MkEmail (m_id message) (m_threadId message) headers body attachments).

(** ** [analyzeEmailBody] *)

Definition systemPrompt : string :=
  ("You are an AI email assistant. " +:+
   "If the email is unclear and you need more information, respond with 'Clarify:' as the first word, followed by your question. " +:+
   "If you understand the instructions, respond normally without the 'Clarify:' prefix.")%string.

Definition humanPrompt (body : string) : string :=
  ("Analyze this email and extract instructions if possible." +:+ nl +:+ nl
   +:+ "Email: " +:+ body)%string.

Definition analyzeEmailBody (body : string) : prog string :=
  call (ModelInvoke systemPrompt (humanPrompt body)).

(** ** [sendEmailReply] *)

(** The lines of the reply before they are joined; [to] may be [undefined]
    and [messageId] may be [null]. *)
Definition replyLines (to : option string) (subject body : string)
    (messageId : option string) : list string :=
  ["From: md@bursement.com";
   "To: " +:+ show_undefined to;
   "Subject: Re: " +:+ subject;
   "In-Reply-To: " +:+ show_null messageId;
   "References: " +:+ show_null messageId;
   EmptyString;
   body]%string.

Definition rawMessage (to : option string) (subject body : string)
    (messageId : option string) : string :=
  String.concat nl (replyLines to subject body messageId).

(** The URL-safe base64 the source builds with three [replace]. *)
Definition base64url (rt : runtime) (s : string) : string :=
  strip_trailing "="
    (replace_all "/" "_" (replace_all "+" "-" (toBase64 rt s))).

Definition sendEmailReply (rt : runtime) (to : option string)
    (subject body threadId : string) (messageId : option string) : prog unit :=
  call (MessagesSend (base64url rt (rawMessage to subject body messageId))
          threadId).

(** ** [processEmail] *)

(** The [Message-Id] header as [processEmail] looks it up: the first header
    whose lower-cased name is ["message-id"], or [null]. *)
Definition messageIdOf (message : message) : option string :=
  h_value <$>
    find_first (fun h => String.eqb (toLowerCase (h_name h)) "message-id")
      (pl_headers (m_payload message)).

Definition markRead (id : string) : prog unit :=
  call (MessagesModify id ["UNREAD"%string]).

Definition processEmail (rt : runtime) (message : message) : prog unit :=
  email <- await (extractEmail rt message) ;;
  let emailThreadId := e_threadId email in
  let messageId := messageIdOf message in
  let sender := e_headers email !! "From"%string in
  let subject := or_empty (e_headers email !! "Subject"%string) in
  if negb (startsWith subject "Analysis:") then
    call (ConsoleLog [LStr ("Skipping email (not Analysis): " +:+ subject)])
  else
    try_catch
      (aiResponse <- await (analyzeEmailBody (e_body email)) ;;
       (if startsWith aiResponse "Clarify:" then
          await (sendEmailReply rt sender subject aiResponse emailThreadId
                   messageId) ;;;
          call (ConsoleLog
                  [LStr ("Clarification sent to " +:+ show_undefined sender)]) ;;;
          call (ThreadsSet (e_threadId email) (ThreadRecord (e_id email)))
        else
          call (ConsoleLog [LStr "AI instructions:"; LStr aiResponse]) ;;;
          call (ConsoleLog
                  [LStr "Attachments:";
                   LStrs (map a_filename (e_attachments email))]) ;;;
          call (ThreadsDelete (e_threadId email))) ;;;
       markRead (e_id email))
      (fun err =>
         call (ConsoleError
                 [LStr ("Error processing email " +:+ e_id email +:+ ":");
                  LErr err])).

(** ** Running one program alone *)

(** What an operation answers and does to [ongoingThreads]. *)
Definition perform (w : world) {R} (o : op R) (st : store)
  : result R * store :=
  match o in op R return result R * store with
  | MessagesList q n => (on_list w q n, st)
  | MessagesGet id format => (on_get w id format, st)
  | AttachmentsGet mid aid => (on_attachment w mid aid, st)
  | ModelInvoke sys human => (on_invoke w sys human, st)
  | MessagesSend raw tid => (on_send w raw tid, st)
  | MessagesModify id labels => (on_modify w id labels, st)
  | Yield => (inr tt, st)
  | ThreadsHas tid =>
      (inr (match st !! tid with Some _ => true | None => false end), st)
  | ThreadsSet tid r => (inr tt, <[tid := r]> st)
  | ThreadsDelete tid => (inr tt, delete tid st)
  | ConsoleLog _ => (inr tt, st)
  | ConsoleError _ => (inr tt, st)
  end.

(** A trace lists the operations performed, the ticks apart. *)
Definition observe {R} (o : op R) : list anyop :=
  match o with
  | Yield => []
  | _ => [Op o]
  end.

(** [exec w p st]: [p] run to its end with no other task in between; the
    outcome, the final [ongoingThreads] and the trace. *)
Fixpoint exec {A} (w : world) (p : prog A) (st : store)
  : result A * store * list anyop :=
  match p with
  | Ret a => (inr a, st, [])
  | Throw e => (inl e, st, [])
  | Vis o k =>
      let '(r, st1) := perform w o st in
      let '(res, st2, tr) := exec w (k r) st1 in
      (res, st2, observe o ++ tr)
  end.

(** The three components of a run. *)
Definition outcome {A} (run : result A * store * list anyop) : result A :=
  run.1.1.
Definition threadsAfter {A} (run : result A * store * list anyop) : store :=
  run.1.2.
Definition traceOf {A} (run : result A * store * list anyop) : list anyop :=
  run.2.

(** ** [pollEmails]: one polling cycle *)

(** Who performs an operation in a cycle: [pollEmails] itself, or the task
    of the message at index [i] of [fullMessages]. *)
Inductive actor : Type :=
| Poll
| Task (i : nat).

Record event := Ev { who : actor; what : anyop }.

(** A task of the concurrent batch between two turns: suspended on the
    asynchronous operation it has issued, or settled. *)
Inductive task : Type :=
| Suspended (R : Type) (o : op R) (k : result R -> prog unit)
| Settled (r : result unit).
Arguments Suspended {R} o k.

(** A task runs from where it holds the processor to its next suspension:
    synchronous operations are performed on the way, an asynchronous one is
    issued and suspends the task. *)
Fixpoint start (w : world) (p : prog unit) (st : store)
  : task * store * list anyop :=
  match p with
  | Ret a => (Settled (inr a), st, [])
  | Throw e => (Settled (inl e), st, [])
  | Vis o k =>
      if is_async o then (Suspended o k, st, observe o)
      else
        let '(r, st1) := perform w o st in
        let '(t, st2, tr) := start w (k r) st1 in
        (t, st2, observe o ++ tr)
  end.

(** The pending operation settles and the task goes on. *)
Definition resume (w : world) (t : task) (st : store)
  : task * store * list anyop :=
  match t with
  | Suspended o k => start w (k (perform w o st).1) st
  | Settled _ => (t, st, [])
  end.

(** The same, up to the end of the task. *)
Definition finish (w : world) (t : task) (st : store)
  : result unit * store * list anyop :=
  match t with
  | Suspended o k => exec w (k (perform w o st).1) st
  | Settled r => (r, st, [])
  end.

(** [finish] as a turn of the batch. *)
Definition complete (w : world) (t : task) (st : store)
  : task * store * list anyop :=
  let '(r, st1, tr) := finish w t st in (Settled r, st1, tr).

(** The subject as [pollEmails] reads it: the value of the first header
    named [Subject], or the empty string. *)
Definition subjectOf (fullMessage : message) : string :=
  match find_first (fun h => String.eqb (h_name h) "Subject")
          (pl_headers (m_payload fullMessage)) with
  | Some subjectHeader => h_value subjectHeader
  | None => EmptyString
  end.

(** The callback of [fullMessages.map] in [pollEmails] (lines 207-218): the
    admission test, then [processEmail].  [||] reads [ongoingThreads] only
    when the subject lacks the prefix. *)
Definition eligibleTask (rt : runtime) (fullMessage : message) : prog unit :=
  let subject := subjectOf fullMessage in
  let threadId := m_threadId fullMessage in
  eligible <-
    (if startsWith subject "Analysis:" then Ret true
     else call (ThreadsHas threadId)) ;;
  if (eligible : bool) then await (processEmail rt fullMessage) else Ret tt.

(** The state of the batch: the tasks, [ongoingThreads], whether the
    [Promise.all] over the tasks has rejected already, and the events so
    far. *)
Record pool := Pool {
  tasks : list task;
  threads : store;
  rejected : bool;
  log : list event
}.

(** The line the [catch] of [pollEmails] prints. *)
Definition pollError (err : error) : event :=
  Ev Poll (Op (ConsoleError [LStr "Error polling emails:"; LErr err])).

(** [Promise.all] rejects with the first rejection it sees, and the [catch]
    of [pollEmails] logs it; the other tasks go on. *)
Definition noteRejection (rej : bool) (t : task) : bool * list event :=
  match t with
  | Settled (inl err) => (true, if rej then [] else [pollError err])
  | _ => (rej, [])
  end.

(** One turn of the batch: the task of index [i] runs, by [resume] or by
    [complete], and its operations are logged under its index. *)
Definition turn (run : world -> task -> store -> task * store * list anyop)
    (w : world) (s : pool) (i : nat) : pool :=
  match tasks s !! i with
  | Some t =>
      let '(t', st', tr) := run w t (threads s) in
      let '(rej', noted) := noteRejection (rejected s) t' in
      Pool (<[i := t']> (tasks s)) st' rej'
        (log s ++ map (Ev (Task i)) tr ++ noted)
  | None => s
  end.

(** [fullMessages.map(async ...)]: every callback runs, in order, up to its
    first suspension. *)
Fixpoint startAll (rt : runtime) (w : world) (i : nat)
    (fullMessages : list message) (s : pool) : pool :=
  match fullMessages with
  | [] => s
  | m :: rest =>
      let '(t, st', tr) := start w (eligibleTask rt m) (threads s) in
      let '(rej', noted) := noteRejection (rejected s) t in
      startAll rt w (S i) rest
        (Pool (tasks s ++ [t]) st' rej'
           (log s ++ map (Ev (Task i)) tr ++ noted))
  end.

(** A schedule: the order in which the fetches of step 2 settle, and the
    task that resumes at each turn of the batch.  When the turns are used up
    the tasks still suspended run to their end, in order. *)
Record schedule := Schedule {
  completion : list nat;
  picks : list nat
}.

Definition runBatch (rt : runtime) (w : world) (sch : schedule)
    (fullMessages : list message) (st : store) : pool :=
  let s0 := startAll rt w 0 fullMessages (Pool [] st false []) in
  let s1 := fold_left (turn resume w) (picks sch) s0 in
  fold_left (turn complete w) (seq 0 (length (tasks s1))) s1.

(** [Promise.all] over promises whose outcomes are [rs]: all the values in
    order, or the error of the promise that rejects first in the order
    [order] of settling. *)
Fixpoint firstRejection {A} (rs : list (result A)) : option error :=
  match rs with
  | [] => None
  | inl e :: _ => Some e
  | inr _ :: rest => firstRejection rest
  end.

Fixpoint rejectionInOrder {A} (order : list nat) (rs : list (result A))
  : option error :=
  match order with
  | [] => None
  | i :: rest =>
      match rs !! i with
      | Some (inl e) => Some e
      | _ => rejectionInOrder rest rs
      end
  end.

Fixpoint fulfilled {A} (rs : list (result A)) : list A :=
  match rs with
  | [] => []
  | inr a :: rest => a :: fulfilled rest
  | inl _ :: rest => fulfilled rest
  end.

Definition promiseAll {A} (order : list nat) (rs : list (result A))
  : result (list A) :=
  match firstRejection rs with
  | None => inr (fulfilled rs)
  | Some e => inl (default e (rejectionInOrder order rs))
  end.

(** The constants of the listing call. *)
Definition query : string := "to:md@bursement.com is:unread".

Definition listing : op (option (list messageRef)) := MessagesList query 50.

Definition fetchOf (msg : messageRef) : op message :=
  MessagesGet (r_id msg) "full".

(** The full messages of step 2, or the rejection of its [Promise.all]. *)
Definition fetchAll (w : world) (sch : schedule) (messages : list messageRef)
  : result (list message) :=
  promiseAll (completion sch)
    (map (fun msg => on_get w (r_id msg) "full") messages).

(** One cycle from [ongoingThreads = st]: the final map and the events, in
    the order they happen. *)
Definition pollEmails (rt : runtime) (w : world) (sch : schedule)
    (st : store) : store * list event :=
  match on_list w query 50 with
  | inl err => (st, [Ev Poll (Op listing); pollError err])
  | inr data =>
      let messages := default [] data in
      match messages with
      | [] => (st, [Ev Poll (Op listing)])
      | _ :: _ =>
          let fetches := map (fun msg => Ev Poll (Op (fetchOf msg))) messages in
          match fetchAll w sch messages with
          | inl err =>
              (st, Ev Poll (Op listing) :: fetches ++ [pollError err])
          | inr fullMessages =>
              let s := runBatch rt w sch fullMessages st in
              (threads s, Ev Poll (Op listing) :: fetches ++ log s)
          end
      end
  end.

(** The full messages a cycle hands to its batch, when the listing is not
    empty and every fetch succeeds. *)
Definition fetchedMessages (w : world) (sch : schedule)
  : option (list message) :=
  match on_list w query 50 with
  | inr data =>
      match default [] data with
      | [] => None
      | msg :: rest =>
          match fetchAll w sch (msg :: rest) with
          | inr fullMessages => Some fullMessages
          | inl _ => None
          end
      end
  | inl _ => None
  end.

(** The caps the listing calls of a trace ask for. *)
Definition requestedCaps (l : list event) : list Z :=
  omap (fun ev =>
          match what ev with
          | Op (MessagesList _ maxResults) => Some maxResults
          | _ => None
          end) l.

(** The store after a sequence of cycles, each with its world and its
    schedule, run one after the other. *)
Definition runCycles (rt : runtime) (cycles : list (world * schedule))
    (st : store) : store :=
  fold_left (fun st c => (pollEmails rt c.1 c.2 st).1) cycles st.

(** ** Vocabulary of the statements *)

(** The outcome and the trace of [extractEmail]; neither depends on
    [ongoingThreads]. *)
Definition extracted (rt : runtime) (w : world) (m : message) : result Email :=
  (exec w (extractEmail rt m) ∅).1.1.

Definition fetched (rt : runtime) (w : world) (m : message) : list anyop :=
  (exec w (extractEmail rt m) ∅).2.

(** What the model answers for an email. *)
Definition classification (w : world) (email : Email) : result string :=
  on_invoke w systemPrompt (humanPrompt (e_body email)).

(** The sender and the subject as [processEmail] reads them off the email. *)
Definition senderOf (email : Email) : option string :=
  e_headers email !! "From"%string.

Definition subjectIn (email : Email) : string :=
  or_empty (e_headers email !! "Subject"%string).

(** The reply [processEmail] sends for a classification [text], and how the
    world settles the send. *)
Definition replyRaw (rt : runtime) (m : message) (email : Email)
    (text : string) : string :=
  base64url rt
    (rawMessage (senderOf email) (subjectIn email) text (messageIdOf m)).

Definition replyTo (rt : runtime) (m : message) (email : Email)
    (text : string) : op unit :=
  MessagesSend (replyRaw rt m email text) (e_threadId email).

Definition sendOutcome (rt : runtime) (w : world) (m : message)
    (email : Email) (text : string) : result unit :=
  on_send w (replyRaw rt m email text) (e_threadId email).

Definition markReadOutcome (w : world) (email : Email) : result unit :=
  on_modify w (e_id email) ["UNREAD"%string].

(** The other operations of [processEmail], as they appear in traces. *)
Definition invokeOf (email : Email) : anyop :=
  Op (ModelInvoke systemPrompt (humanPrompt (e_body email))).

Definition skipLine (email : Email) : anyop :=
  Op (ConsoleLog
        [LStr ("Skipping email (not Analysis): " +:+ subjectIn email)]).

Definition errorLine (email : Email) (err : error) : anyop :=
  Op (ConsoleError
        [LStr ("Error processing email " +:+ e_id email +:+ ":"); LErr err]).

Definition sentLine (email : Email) : anyop :=
  Op (ConsoleLog
        [LStr ("Clarification sent to " +:+ show_undefined (senderOf email))]).

Definition understoodLines (email : Email) (text : string) : list anyop :=
  [Op (ConsoleLog [LStr "AI instructions:"; LStr text]);
   Op (ConsoleLog
         [LStr "Attachments:"; LStrs (map a_filename (e_attachments email))])].

Definition trackOf (email : Email) : anyop :=
  Op (ThreadsSet (e_threadId email) (ThreadRecord (e_id email))).

Definition untrackOf (email : Email) : anyop :=
  Op (ThreadsDelete (e_threadId email)).

Definition modifyOf (email : Email) : anyop :=
  Op (MessagesModify (e_id email) ["UNREAD"%string]).

(** The end of a successful branch: the mark-read call, and the error line
    when it fails. *)
Definition markReadTail (w : world) (email : Email) : list anyop :=
  modifyOf email ::
  match markReadOutcome w email with
  | inl err => [errorLine email err]
  | inr _ => []
  end.

(** Kinds of operations. *)
Definition isSend (a : anyop) : bool :=
  match a with
  | Op (MessagesSend _ _) => true
  | _ => false
  end.

Definition isTrack (a : anyop) : bool :=
  match a with
  | Op (ThreadsSet _ _) => true
  | _ => false
  end.

Definition isWrite (a : anyop) : bool :=
  match a with
  | Op (ThreadsSet _ _) | Op (ThreadsDelete _) => true
  | _ => false
  end.

(** The arguments of an insertion in the store, and of a send. *)
Definition trackArgs (a : anyop) : option (string * threadRecord) :=
  match a with
  | Op (ThreadsSet threadId r) => Some (threadId, r)
  | _ => None
  end.

Definition sendArgs (a : anyop) : option (string * string) :=
  match a with
  | Op (MessagesSend raw threadId) => Some (raw, threadId)
  | _ => None
  end.

Definition isListing (a : anyop) : bool :=
  match a with
  | Op (MessagesList _ _) => true
  | _ => false
  end.

Definition touchesThreads (a : anyop) : bool :=
  match a with
  | Op (ThreadsHas _) | Op (ThreadsSet _ _) | Op (ThreadsDelete _) => true
  | _ => false
  end.

(** The operations of the task of index [i] among the events of a cycle. *)
Definition eventsOf (i : nat) (l : list event) : list anyop :=
  omap (fun ev =>
          match who ev with
          | Task j => if decide (j = i) then Some (what ev) else None
          | Poll => None
          end) l.

(** What an operation does to [ongoingThreads], and the map a sequence of
    operations leaves. *)
Definition applyWrite (a : anyop) (st : store) : store :=
  match a with
  | Op (ThreadsSet tid r) => <[tid := r]> st
  | Op (ThreadsDelete tid) => delete tid st
  | _ => st
  end.

Definition replay (tr : list anyop) (st : store) : store :=
  fold_left (fun st a => applyWrite a st) tr st.

(** The operations a task of the batch may perform once admitted: neither
    a listing, nor a message fetch, nor a read of [ongoingThreads]. *)
Definition taskOp (a : anyop) : Prop :=
  match a with
  | Op (MessagesList _ _) | Op (MessagesGet _ _) | Op (ThreadsHas _) => False
  | _ => True
  end.

(** An operation that suspends its task. *)
Definition asyncOp (a : anyop) : Prop :=
  match a with
  | Op o => is_async o = true
  end.

(** A program whose first step suspends it. *)
Definition headAsync {A} (p : prog A) : Prop :=
  match p with
  | Vis o _ => is_async o = true
  | _ => False
  end.

(** An operation that does not read [ongoingThreads]. *)
Definition noHas (a : anyop) : Prop :=
  match a with
  | Op (ThreadsHas _) => False
  | _ => True
  end.

(** Every operation a program can perform, whatever the answers, satisfies
    [P]. *)
Fixpoint ops_all {A} (P : anyop -> Prop) (p : prog A) : Prop :=
  match p with
  | Vis o k => P (Op o) /\ forall r, ops_all P (k r)
  | _ => True
  end.

(** The same for a task: its pending operation and what follows. *)
Definition task_ops_all (P : anyop -> Prop) (t : task) : Prop :=
  match t with
  | Suspended o k => P (Op o) /\ forall r, ops_all P (k r)
  | Settled _ => True
  end.

(** What a task still has to do, once its pending operation settles. *)
Definition remaining (w : world) (t : task) : list anyop :=
  (finish w t ∅).2.

Definition isSettled (t : task) : Prop :=
  match t with
  | Settled _ => True
  | Suspended _ _ => False
  end.

(** The invariant of the batch over [fullMessages], started from
    [ongoingThreads = st0], once [k] tasks have started: the map is what the
    logged operations make of [st0]; a task that never reads the map has
    logged, and still has to do, what it does when it runs alone from
    [st0]. *)
Definition batchInv (rt : runtime) (w : world) (fullMessages : list message)
    (st0 : store) (k : nat) (s : pool) : Prop :=
  length (tasks s) = k
  /\ threads s = replay (map what (log s)) st0
  /\ (forall i, (k <= i)%nat -> eventsOf i (log s) = [])
  /\ (forall i m,
        (i < k)%nat ->
        fullMessages !! i = Some m ->
        exists t,
          tasks s !! i = Some t
          /\ task_ops_all noHas t
          /\ eventsOf i (log s) ++ remaining w t
             = traceOf (exec w (eligibleTask rt m) st0))
  /\ Forall (fun ev => who ev = Poll -> exists e, ev = pollError e) (log s).

(** What [resume] and [complete] have in common. *)
Definition goodRun
    (run : world -> task -> store -> task * store * list anyop) : Prop :=
  forall w t st,
    task_ops_all noHas t ->
    task_ops_all noHas (run w t st).1.1
    /\ (run w t st).1.2 = replay (run w t st).2 st
    /\ remaining w t = (run w t st).2 ++ remaining w (run w t st).1.1.

(** In the events [tr] of a cycle run in the world [w], the task of index
    [i] has sent the clarification reply for the message [m], and the send
    has succeeded. *)
Definition clarificationDelivered (rt : runtime) (w : world)
    (tr : list event) (i : nat) (m : message) : Prop :=
  exists email text,
    extracted rt w m = inr email
    /\ classification w email = inr text
    /\ startsWith text "Clarify:" = true
    /\ Op (replyTo rt m email text) ∈ eventsOf i tr
    /\ sendOutcome rt w m email text = inr tt.

(** The subject [processEmail] puts in a reply: [email.headers.Subject || ""]
    of the extracted email. *)
Definition originalSubject (m : message) : string :=
  or_empty (extractHeaders (pl_headers (m_payload m)) !! "Subject"%string).

Definition originalSender (m : message) : option string :=
  extractHeaders (pl_headers (m_payload m)) !! "From"%string.

(** ** Sample mailboxes *)

Definition rt0 : runtime := Runtime (fun s => s) (fun s => s).

Definition lookupMessage (ms : list message) (id : string) : result message :=
  match find_first (fun m => String.eqb (m_id m) id) ms with
  | Some m => inr m
  | None => inl (Rejected "Not Found")
  end.

(** A mailbox that lists [ms], fails to fetch the messages whose id is in
    [broken], and settles the other calls as given. *)
Definition mailbox (ms : list message) (broken : list string)
    (att : result string) (answer : result string) (send modify : result unit)
  : world :=
  World
    (fun _ _ => inr (Some (map (fun m => MessageRef (m_id m) (m_threadId m)) ms)))
    (fun id _ =>
       if includes broken id then inl (Rejected "backend error")
       else lookupMessage ms id)
    (fun _ _ => att)
    (fun _ _ => answer)
    (fun _ _ => send)
    (fun _ _ => modify).

Definition plainBody (data : string) : option partBody :=
  Some (PartBody (Some data) None).

(** Scenario A: a fresh request. *)
Definition refundRequest : message :=
  Message "m1" "t1"
    (Payload
       [Header "From" "alice@example.com";
        Header "Subject" "Analysis: refund request";
        Header "Message-ID" "<abc@mail.example.com>"]
       None (plainBody "SSB3YW50IGEgcmVmdW5k")).

(** Scenario B: the sender's answer in the same thread, under the subject a
    mail client gives a reply. *)
Definition followUp : message :=
  Message "m2" "t1"
    (Payload
       [Header "From" "alice@example.com";
        Header "Subject" "Re: Analysis: refund request";
        Header "Message-ID" "<def@mail.example.com>"]
       None (plainBody "T3JkZXIgNDI")).

(** Scenario C: unrelated mail. *)
Definition hello : message :=
  Message "m3" "t9"
    (Payload
       [Header "From" "bob@example.com"; Header "Subject" "Hello"]
       None (plainBody "SGk")).

(** A request with an attachment. *)
Definition invoicePdf : part :=
  Part "application/pdf" (Some "invoice.pdf"%string)
    (Some (PartBody None (Some "att-1"%string))).

Definition invoiceParts : list part :=
  [Part "text/plain" (Some EmptyString) (plainBody "U2VlIGF0dGFjaGVk");
   invoicePdf].

Definition invoiceRequest : message :=
  Message "m4" "t4"
    (Payload
       [Header "From" "carol@example.com";
        Header "Subject" "Analysis: invoice"]
       (Some invoiceParts) None).

Definition ok : result unit := inr tt.
Definition down : result unit := inl (Rejected "service unavailable").

Definition clarifyText : string := "Clarify: which order number?".
Definition understoodText : string := "Process the attached invoice".

Definition tracked_t1 : store := {[ "t1"%string := ThreadRecord "m1" ]}.

Definition inOrder : schedule := Schedule [] [].

(** The emails [extractEmail] makes of the sample messages. *)
Definition emailOf (m : message) (body : string) (atts : list attachment)
  : Email :=
  MkEmail (m_id m) (m_threadId m) (extractHeaders (pl_headers (m_payload m)))
    body atts.

Definition refundEmail : Email := emailOf refundRequest "SSB3YW50IGEgcmVmdW5k" [].
Definition followUpEmail : Email := emailOf followUp "T3JkZXIgNDI" [].

(** Mailboxes holding the refund request alone: the model understands it;
    the model asks back; the same with the send failing; the same with the
    mark-read call failing. *)
Definition understands : world :=
  mailbox [refundRequest] [] (inr EmptyString) (inr understoodText) ok ok.
Definition asksBack : world :=
  mailbox [refundRequest] [] (inr EmptyString) (inr clarifyText) ok ok.
Definition sendFails : world :=
  mailbox [refundRequest] [] (inr EmptyString) (inr clarifyText) down ok.
Definition markReadFails : world :=
  mailbox [refundRequest] [] (inr EmptyString) (inr clarifyText) ok down.

(** A mailbox holding the invoice request, whose attachment cannot be
    fetched. *)
Definition attachmentFails : world :=
  mailbox [invoiceRequest] [] (inl (Rejected "attachment unavailable"))
    (inr understoodText) ok ok.

(** Another fresh request. *)
Definition orderStatus : message :=
  Message "m5" "t5"
    (Payload
       [Header "From" "dave@example.com";
        Header "Subject" "Analysis: order status"]
       None (plainBody "V2hlcmUgaXMgbXkgb3JkZXI")).

(** Scenario C: the mailbox holds the unrelated mail only. *)
Definition unrelatedMail : world :=
  mailbox [hello] [] (inr EmptyString) (inr understoodText) ok ok.

(** Two fresh requests are listed and the fetch of the first fails. *)
Definition firstFetchFails : world :=
  mailbox [refundRequest; orderStatus] ["m1"%string] (inr EmptyString)
    (inr understoodText) ok ok.

(** Scenario B: the follow-up arrives, and the model understands it. *)
Definition followUpArrives : world :=
  mailbox [followUp] [] (inr EmptyString) (inr understoodText) ok ok.

(** ** Tactics *)

(** One step of [exec] on a call whose answer is at hand. *)
Ltac exec_step := cbn [exec call perform observe app].

(** Membership in an empty list of sends or insertions. *)
Ltac no_event H := by apply elem_of_nil in H.

(** ** Vocabulary of the further properties *)

(** The headers of a given name, and the value of the last of them. *)
Definition headersNamed (n : string) (hs : list header) : list header :=
  List.filter (fun h => String.eqb (h_name h) n) hs.

Definition lastValue (n : string) (hs : list header) : option string :=
  h_value <$> last (headersNamed n hs).

(** [x.body.data] where it is defined. *)
Definition partData (b : option partBody) : option string :=
  b ≫= b_data.

(** The data of the text parts, in part order. *)
Definition textData (parts : list part) : list string :=
  omap (fun p => if isText p then partData (p_body p) else None) parts.

(** Every text part carries data. *)
Definition bodyComplete (parts : list part) : Prop :=
  Forall (fun p => isText p = true -> is_Some (partData (p_body p))) parts.

(** The text a payload lacks: a text part without data, or, in a message
    without parts, a body without data. *)
Definition missingText (pl : payload) : Prop :=
  match pl_parts pl with
  | Some parts =>
      exists p, p ∈ parts /\ isText p = true /\ partData (p_body p) = None
  | None => partData (pl_body pl) = None
  end.

(** [s1 + s2 + ...] *)
Definition concatAll (l : list string) : string :=
  fold_right String.append EmptyString l.

(** The attachments of a list of parts, in part order: file name, media
    type, attachment id. *)
Definition attachmentsOf (parts : list part)
  : list (string * string * string) :=
  omap (fun p => (fun fa => (fa.1, p_mimeType p, fa.2)) <$> attachmentRef p)
    parts.

(** What the fetch of one attachment gives. *)
Definition fetchedAttachment (w : world) (messageId : string)
    (x : string * string * string) : result attachment :=
  match on_attachment w messageId x.2 with
  | inr d => inr (Attachment x.1.1 x.1.2 d)
  | inl e => inl e
  end.

(** The attachments up to the first whose fetch fails, that one included. *)
Fixpoint untilFailure (w : world) (messageId : string)
    (l : list (string * string * string)) : list (string * string * string) :=
  match l with
  | [] => []
  | x :: rest =>
      x ::
      match on_attachment w messageId x.2 with
      | inr _ => untilFailure w messageId rest
      | inl _ => []
      end
  end.

(** The attachments gathered by fetching a list of them in order, after
    [acc], or the first failure. *)
Fixpoint collectAttachments (w : world) (messageId : string)
    (l : list (string * string * string)) (acc : list attachment)
  : result (list attachment) :=
  match l with
  | [] => inr acc
  | x :: rest =>
      match fetchedAttachment w messageId x with
      | inr a => collectAttachments w messageId rest (acc ++ [a])
      | inl e => inl e
      end
  end.

(** The fetch of an attachment, as traces record it. *)
Definition attachmentGet (messageId : string) (x : string * string * string)
  : anyop :=
  Op (AttachmentsGet messageId x.2).

(** An empty note, as Gmail returns it: no parts, a body without data. *)
Definition emptyNote : message :=
  Message "m6" "t6"
    (Payload
       [Header "From" "erin@example.com"; Header "Subject" "Analysis: "]
       None (Some (PartBody None None))).

(** A request with two attachments. *)
Definition receiptPdf : part :=
  Part "application/pdf" (Some "receipt.pdf"%string)
    (Some (PartBody None (Some "att-2"%string))).

Definition twoInvoiceParts : list part :=
  [Part "text/plain" (Some EmptyString) (plainBody "VHdvIGZpbGVz");
   invoicePdf; receiptPdf].

Definition twoInvoices : message :=
  Message "m7" "t7"
    (Payload
       [Header "From" "carol@example.com";
        Header "Subject" "Analysis: two invoices"]
       (Some twoInvoiceParts) None).

Definition noAttachment : world :=
  mailbox [twoInvoices] [] (inl (Rejected "attachment unavailable"))
    (inr understoodText) ok ok.

(** The characters of a string. *)
Definition chars (s : string) : list ascii := list_ascii_of_string s.

(** A string of the URL-safe base64 alphabet without padding: no [+], no
    [/], no [=] at the end. *)
Definition urlSafe (s : string) : Prop :=
  ("+"%char ∉ chars s) /\ ("/"%char ∉ chars s)
  /\ last (chars s) <> Some "="%char.

(** The operations by which [processEmail] handles an email: the call of
    the model, the send, the mark-read call and the writes to
    [ongoingThreads]. *)
Definition handles (a : anyop) : bool :=
  match a with
  | Op (ModelInvoke _ _) | Op (MessagesSend _ _) | Op (MessagesModify _ _)
  | Op (ThreadsSet _ _) | Op (ThreadsDelete _) => true
  | _ => false
  end.

Definition isInvoke (a : anyop) : bool :=
  match a with
  | Op (ModelInvoke _ _) => true
  | _ => false
  end.

Definition isModify (a : anyop) : bool :=
  match a with
  | Op (MessagesModify _ _) => true
  | _ => false
  end.

Definition isGet (a : anyop) : bool :=
  match a with
  | Op (MessagesGet _ _) => true
  | _ => false
  end.

(** The arguments of a mark-read call. *)
Definition modifyArgs (a : anyop) : option (string * list string) :=
  match a with
  | Op (MessagesModify id labels) => Some (id, labels)
  | _ => None
  end.

(** The thread an operation writes in [ongoingThreads], if it writes. *)
Definition writtenThread (a : anyop) : option string :=
  match a with
  | Op (ThreadsSet threadId _) | Op (ThreadsDelete threadId) => Some threadId
  | _ => None
  end.

(** Two fresh requests in two threads, both asked back. *)
Definition twoRequests : world :=
  mailbox [refundRequest; orderStatus] [] (inr EmptyString) (inr clarifyText)
    ok ok.

(** A schedule that alternates between two tasks. *)
Definition alternating : schedule := Schedule [] [1; 0; 1; 0]%nat.

Definition tracked_t9 : store := {[ "t9"%string := ThreadRecord "m0" ]}.

(** A second request in the thread of the first. *)
Definition secondRequest : message :=
  Message "m8" "t1"
    (Payload
       [Header "From" "alice@example.com";
        Header "Subject" "Analysis: refund request, order 42";
        Header "Message-ID" "<ghi@mail.example.com>"]
       None (plainBody "T3JkZXIgNDI")).

Definition secondEmail : Email := emailOf secondRequest "T3JkZXIgNDI" [].

(** A request with neither sender nor Message-ID. *)
Definition anonymousRequest : message :=
  Message "m9" "t10"
    (Payload [Header "Subject" "Analysis: who am I"] None (plainBody "Pz8_")).

Definition anonymousAsked : world :=
  mailbox [anonymousRequest] [] (inr EmptyString) (inr clarifyText) ok ok.

(** ** The Message-ID header of the original email *)





(** * Properties *)

(** ** Running programs alone *)

Lemma exec_bind {A B} w (p : prog A) (f : A -> prog B) st :
  exec w (bind p f) st =
  match exec w p st with
  | (inl e, st1, tr1) => (inl e, st1, tr1)
  | (inr a, st1, tr1) =>
      let '(r2, st2, tr2) := exec w (f a) st1 in (r2, st2, tr1 ++ tr2)
  end.
Proof.
  revert st. induction p as [a|e|R o k IH]; intros st; simpl.
  - by destruct (exec w (f a) st) as [[r2 st2] tr2].
  - done.
  - destruct (perform w o st) as [r st1]. rewrite IH.
    destruct (exec w (k r) st1) as [[[e|a] st2] tr]; [done|].
    destruct (exec w (f a) st2) as [[r2 st3] tr2].
    by rewrite app_assoc.
Qed.

Lemma exec_try_catch {A} w (p : prog A) (h : error -> prog A) st :
  exec w (try_catch p h) st =
  match exec w p st with
  | (inl e, st1, tr1) =>
      let '(r2, st2, tr2) := exec w (h e) st1 in (r2, st2, tr1 ++ tr2)
  | (inr a, st1, tr1) => (inr a, st1, tr1)
  end.
Proof.
  revert st. induction p as [a|e|R o k IH]; intros st; simpl.
  - done.
  - by destruct (exec w (h e) st) as [[r2 st2] tr2].
  - destruct (perform w o st) as [r st1]. rewrite IH.
    destruct (exec w (k r) st1) as [[[e|a] st2] tr]; [|done].
    destruct (exec w (h e) st2) as [[r2 st3] tr2].
    by rewrite app_assoc.
Qed.

Lemma exec_await {A} w (p : prog A) st : exec w (await p) st = exec w p st.
Proof.
  revert st. induction p as [a|e|R o k IH]; intros st; simpl; try done.
  destruct (perform w o st) as [r st1]. by rewrite IH.
Qed.

Lemma ops_all_impl {A} (P Q : anyop -> Prop) (p : prog A) :
  (forall a, P a -> Q a) -> ops_all P p -> ops_all Q p.
Proof.
  intros HPQ. induction p as [a|e|R o k IH]; simpl; try done.
  intros [Ho Hk]. split; [by apply HPQ|]. intros r. by apply IH.
Qed.

Lemma ops_all_bind {A B} P (p : prog A) (f : A -> prog B) :
  ops_all P p -> (forall a, ops_all P (f a)) -> ops_all P (bind p f).
Proof.
  intros Hp Hf. induction p as [a|e|R o k IH]; simpl in *; try done.
  destruct Hp as [Ho Hk]. split; [done|]. intros r. by apply IH.
Qed.

Lemma ops_all_try_catch {A} P (p : prog A) (h : error -> prog A) :
  ops_all P p -> (forall e, ops_all P (h e)) -> ops_all P (try_catch p h).
Proof.
  intros Hp Hh. induction p as [a|e|R o k IH]; simpl in *; try done.
  destruct Hp as [Ho Hk]. split; [done|]. intros r. by apply IH.
Qed.

Lemma ops_all_await {A} P (p : prog A) :
  P (Op Yield) -> ops_all P p -> ops_all P (await p).
Proof.
  intros HY Hp. induction p as [a|e|R o k IH]; simpl in *; try done.
  destruct Hp as [Ho Hk]. split; [done|]. intros r. by apply IH.
Qed.

Lemma ops_all_call {R} P (o : op R) : P (Op o) -> ops_all P (call o).
Proof. intros Ho. simpl. split; [done|]. by intros [e|v]. Qed.

(** The operations of a program that satisfies [ops_all P] are in its
    trace only if they satisfy [P]. *)
Lemma exec_ops_all {A} P w (p : prog A) st :
  ops_all P p -> Forall P (exec w p st).2.
Proof.
  revert st. induction p as [a|e|R o k IH]; intros st Hp; simpl in *.
  - constructor.
  - constructor.
  - destruct Hp as [Ho Hk]. destruct (perform w o st) as [r st1].
    specialize (IH r st1 (Hk r)).
    destruct (exec w (k r) st1) as [[res st2] tr]. simpl in *.
    apply Forall_app. split; [|done].
    destruct o; simpl; by repeat constructor.
Qed.

(** A program that leaves [ongoingThreads] alone runs the same from any
    map, and leaves the map as it is. *)
Lemma exec_store_free {A} w (p : prog A) st :
  ops_all (fun a => touchesThreads a = false) p ->
  exec w p st = ((exec w p ∅).1.1, st, (exec w p ∅).2).
Proof.
  intros Hp. generalize (∅ : store) as st0. revert st.
  induction p as [a|e|R o k IH]; intros st st0; simpl in *; try done.
  destruct Hp as [Ho Hk].
  assert (perform w o st = ((perform w o st0).1, st)
          /\ (perform w o st0).2 = st0) as [E1 E2].
  { by destruct o. }
  rewrite E1. destruct (perform w o st0) as [r st0']. simpl in *. subst st0'.
  rewrite (IH r (Hk r) st st0).
  by destruct (exec w (k r) st0) as [[res st2] tr].
Qed.

(** ** [extractEmail] *)

Lemma decodeBase64_ops P rt d : ops_all P (decodeBase64 rt d).
Proof. by destruct d. Qed.

Lemma bodyData_ops P b : ops_all P (bodyData b).
Proof. by destruct b. Qed.

Lemma extractBodyParts_ops P rt parts body :
  ops_all P (extractBodyParts rt parts body).
Proof.
  revert body.
  induction parts as [|part rest IH]; intros body; cbn [extractBodyParts];
    [done|].
  destruct (isText part); [|done].
  apply ops_all_bind; [apply bodyData_ops|]. intros d.
  apply ops_all_bind; [apply decodeBase64_ops|]. intros s. apply IH.
Qed.

Lemma extractBody_ops P rt pl : ops_all P (extractBody rt pl).
Proof.
  unfold extractBody. destruct (pl_parts pl).
  - apply extractBodyParts_ops.
  - apply ops_all_bind; [apply bodyData_ops|]. intros d.
    apply decodeBase64_ops.
Qed.

Lemma fetchAttachments_ops (P : anyop -> Prop) mid parts acc :
  (forall aid, P (Op (AttachmentsGet mid aid))) ->
  ops_all P (fetchAttachments mid parts acc).
Proof.
  intros HP. revert acc.
  induction parts as [|part rest IH]; intros acc; cbn [fetchAttachments];
    [done|].
  destruct (attachmentRef part) as [[filename aid]|]; [|done].
  apply ops_all_bind; [by apply ops_all_call|]. intros d. apply IH.
Qed.

(** [extractEmail] only fetches attachments of its message. *)
Lemma extractEmail_ops (P : anyop -> Prop) rt m :
  (forall aid, P (Op (AttachmentsGet (m_id m) aid))) ->
  ops_all P (extractEmail rt m).
Proof.
  intros HP. unfold extractEmail.
  apply ops_all_bind; [apply extractBody_ops|]. intros body.
  apply ops_all_bind; [|done].
  destruct (pl_parts (m_payload m)); [|done].
  by apply fetchAttachments_ops.
Qed.

(** The last header of a kept name wins. *)
Lemma extractHeaders_snoc hs h :
  extractHeaders (hs ++ [h]) =
  if includes keptHeaders (h_name h)
  then <[h_name h := h_value h]> (extractHeaders hs)
  else extractHeaders hs.
Proof. unfold extractHeaders. by rewrite fold_left_app. Qed.

Lemma originalSubject_last id tid hs v parts body :
  originalSubject
    (Message id tid (Payload (hs ++ [Header "Subject" v]) parts body)) = v.
Proof.
  unfold originalSubject. cbn [m_payload pl_headers].
  rewrite extractHeaders_snoc. cbn [h_name h_value].
  change (includes keptHeaders "Subject") with true. cbn iota.
  by rewrite lookup_insert_eq.
Qed.

Lemma exec_extractEmail rt w m st :
  exec w (extractEmail rt m) st = (extracted rt w m, st, fetched rt w m).
Proof. apply exec_store_free. by apply extractEmail_ops. Qed.

(** The email [extractEmail] returns carries the identifiers of its message
    and the headers [extractHeaders] keeps. *)
Lemma extracted_inv rt w m email :
  extracted rt w m = inr email ->
  e_id email = m_id m /\ e_threadId email = m_threadId m
  /\ e_headers email = extractHeaders (pl_headers (m_payload m)).
Proof.
  unfold extracted, extractEmail. rewrite exec_bind.
  destruct (exec w (extractBody rt (m_payload m)) ∅) as [[[e|body] st1] tr1];
    [done|].
  rewrite exec_bind.
  destruct (exec w _ st1) as [[[e|atts] st2] tr2]; [done|].
  simpl. intros [= <-]. done.
Qed.

(** ** [processEmail] run alone *)

(** The run of [processEmail], case by case: extraction, the subject guard,
    the classification, the send and the mark-read call. *)
Lemma exec_processEmail rt w m st :
  exec w (processEmail rt m) st =
  match extracted rt w m with
  | inl e => (inl e, st, fetched rt w m)
  | inr email =>
      if startsWith (subjectIn email) "Analysis:" then
        match classification w email with
        | inl e =>
            (inr tt, st, fetched rt w m ++ [invokeOf email; errorLine email e])
        | inr text =>
            if startsWith text "Clarify:" then
              match sendOutcome rt w m email text with
              | inl e =>
                  (inr tt, st,
                   fetched rt w m ++
                   [invokeOf email; Op (replyTo rt m email text);
                    errorLine email e])
              | inr _ =>
                  (inr tt,
                   <[e_threadId email := ThreadRecord (e_id email)]> st,
                   fetched rt w m ++
                   [invokeOf email; Op (replyTo rt m email text);
                    sentLine email; trackOf email] ++ markReadTail w email)
              end
            else
              (inr tt, delete (e_threadId email) st,
               fetched rt w m ++
               invokeOf email :: understoodLines email text ++
               untrackOf email :: markReadTail w email)
        end
      else (inr tt, st, fetched rt w m ++ [skipLine email])
  end.
Proof.
  unfold processEmail. rewrite exec_bind, exec_await, exec_extractEmail.
  destruct (extracted rt w m) as [e|email]; [done|].
  fold (subjectIn email). fold (senderOf email).
  destruct (startsWith (subjectIn email) "Analysis:"); cbn [negb].
  2: { cbn. by rewrite ?app_nil_r. }
  rewrite exec_try_catch, exec_bind, exec_await.
  unfold analyzeEmailBody, markReadTail, markReadOutcome, sendOutcome,
    classification.
  cbn [exec call perform observe].
  destruct (on_invoke w systemPrompt (humanPrompt (e_body email)))
    as [e|text]; exec_step.
  { by rewrite ?app_nil_r. }
  destruct (startsWith text "Clarify:").
  - rewrite !exec_bind, exec_await. unfold sendEmailReply.
    fold (replyRaw rt m email text).
    exec_step.
    destruct (on_send w (replyRaw rt m email text) (e_threadId email))
      as [e|[]]; exec_step.
    { by rewrite ?app_nil_r. }
    unfold markRead. exec_step.
    destruct (on_modify w (e_id email) ["UNREAD"%string]) as [e|[]];
      exec_step; by rewrite ?app_nil_r.
  - rewrite !exec_bind. exec_step.
    unfold markRead. exec_step.
    destruct (on_modify w (e_id email) ["UNREAD"%string]) as [e|[]];
      exec_step; by rewrite ?app_nil_r.
Qed.

(** ** Per-email properties *)

Lemma fetched_attachments rt w m :
  Forall (fun a => exists aid, a = Op (AttachmentsGet (m_id m) aid))
    (fetched rt w m).
Proof.
  apply (exec_ops_all _ w (extractEmail rt m) ∅).
  apply extractEmail_ops. by eexists.
Qed.

Lemma filter_none {A} (f : A -> bool) (P : A -> Prop) l :
  (forall a, P a -> f a = false) -> Forall P l -> List.filter f l = [].
Proof.
  intros Hf. induction 1 as [|a l Ha _ IH]; simpl; [done|].
  by rewrite (Hf a Ha).
Qed.

Lemma fetched_no_send rt w m : List.filter isSend (fetched rt w m) = [].
Proof.
  eapply filter_none; [|apply fetched_attachments].
  by intros a [aid ->].
Qed.

Lemma fetched_not_in rt w m a :
  (forall aid, a <> Op (AttachmentsGet (m_id m) aid)) -> a ∉ fetched rt w m.
Proof.
  intros Ha Hin.
  pose proof (fetched_attachments rt w m) as HF.
  rewrite Forall_forall in HF. destruct (HF a Hin) as [aid ->].
  by apply (Ha aid).
Qed.

(** What [extractEmail] returns agrees with the message on the fields the
    statements below read. *)
Lemma extracted_fields rt w m email :
  extracted rt w m = inr email ->
  e_id email = m_id m /\ e_threadId email = m_threadId m
  /\ senderOf email = originalSender m /\ subjectIn email = originalSubject m.
Proof.
  intros He. destruct (extracted_inv _ _ _ _ He) as (Hid & Htid & Hh).
  unfold senderOf, subjectIn, originalSender, originalSubject.
  by rewrite Hh.
Qed.

(** C5.  For every processed email (extracted, subject admitted,
    classified) whose classification text does not start with ["Clarify:"],
    [processEmail] deletes the thread from the store and issues no send:
    run alone, it leaves the former store with the thread's record removed,
    so the thread is untracked afterwards. *)
Theorem understood_untracks_and_sends_nothing rt w m st email text :
  extracted rt w m = inr email ->
  startsWith (subjectIn email) "Analysis:" = true ->
  classification w email = inr text ->
  startsWith text "Clarify:" = false ->
  Op (ThreadsDelete (m_threadId m)) ∈ traceOf (exec w (processEmail rt m) st)
  /\ threadsAfter (exec w (processEmail rt m) st) = delete (m_threadId m) st
  /\ threadsAfter (exec w (processEmail rt m) st) !! m_threadId m = None
  /\ List.filter isSend (traceOf (exec w (processEmail rt m) st)) = [].
Proof.
  intros He Hs Hc Hk.
  destruct (extracted_fields _ _ _ _ He) as (Hid & Htid & _).
  rewrite exec_processEmail, He, Hs, Hc, Hk.
  unfold threadsAfter, traceOf, untrackOf. cbn [fst snd]. rewrite Htid.
  split; [|split; [done|split; [apply lookup_delete_eq|]]].
  - apply elem_of_app. right. unfold understoodLines.
    do 3 (apply elem_of_cons; right). apply elem_of_cons. by left.
  - rewrite List.filter_app, fetched_no_send.
    unfold markReadTail. by destruct (markReadOutcome w email).
Qed.

Lemma understood_untracks_witness :
  (extracted rt0 understands refundRequest = inr refundEmail
   /\ startsWith (subjectIn refundEmail) "Analysis:" = true
   /\ classification understands refundEmail = inr understoodText
   /\ startsWith understoodText "Clarify:" = false)
  /\ Op (ThreadsDelete "t1")
       ∈ traceOf (exec understands (processEmail rt0 refundRequest) tracked_t1)
  /\ threadsAfter (exec understands (processEmail rt0 refundRequest) tracked_t1)
     = delete "t1"%string tracked_t1
  /\ threadsAfter (exec understands (processEmail rt0 refundRequest) tracked_t1)
     !! "t1"%string = None
  /\ List.filter isSend
       (traceOf (exec understands (processEmail rt0 refundRequest) tracked_t1))
     = [].
Proof.
  assert (extracted rt0 understands refundRequest = inr refundEmail
   /\ startsWith (subjectIn refundEmail) "Analysis:" = true
   /\ classification understands refundEmail = inr understoodText
   /\ startsWith understoodText "Clarify:" = false) as H
    by (vm_compute; repeat split; reflexivity).
  split; [exact H|].
  destruct H as (H1 & H2 & H3 & H4).
  exact (understood_untracks_and_sends_nothing rt0 understands refundRequest
           tracked_t1 refundEmail understoodText H1 H2 H3 H4).
Defined.

(** C3, amended.  For every processed email whose classification text
    starts with ["Clarify:"], [processEmail] issues exactly one send: it is
    addressed to the sender (the [From] header), in the email's thread, its
    subject is ["Re: "] and the original subject, its [In-Reply-To] and
    [References] lines carry the original Message-ID (the text [null] when
    the message has none), and its body is the full classification text,
    marker included.  When that send succeeds, [processEmail] sets the
    thread's record to this email's id: run alone, it leaves the former
    store with that record. *)
Theorem clarification_sends_one_reply_then_tracks rt w m st email text :
  extracted rt w m = inr email ->
  startsWith (subjectIn email) "Analysis:" = true ->
  classification w email = inr text ->
  startsWith text "Clarify:" = true ->
  let raw :=
    base64url rt
      (String.concat nl
         ["From: md@bursement.com";
          "To: " +:+ show_undefined (originalSender m);
          "Subject: Re: " +:+ originalSubject m;
          "In-Reply-To: " +:+ show_null (messageIdOf m);
          "References: " +:+ show_null (messageIdOf m);
          EmptyString;
          text]%string) in
  List.filter isSend (traceOf (exec w (processEmail rt m) st))
  = [Op (MessagesSend raw (m_threadId m))]
  /\ (on_send w raw (m_threadId m) = inr tt ->
      Op (ThreadsSet (m_threadId m) (ThreadRecord (m_id m)))
        ∈ traceOf (exec w (processEmail rt m) st)
      /\ threadsAfter (exec w (processEmail rt m) st)
         = <[m_threadId m := ThreadRecord (m_id m)]> st
      /\ threadsAfter (exec w (processEmail rt m) st) !! m_threadId m
         = Some (ThreadRecord (m_id m))).
Proof.
  intros He Hs Hc Hk raw.
  destruct (extracted_fields _ _ _ _ He) as (Hid & Htid & Hfrom & Hsubj).
  assert (replyRaw rt m email text = raw) as Hraw.
  { unfold replyRaw, rawMessage, replyLines. by rewrite Hfrom, Hsubj. }
  rewrite exec_processEmail, He, Hs, Hc, Hk.
  unfold sendOutcome, replyTo, trackOf. rewrite Hraw, Htid, Hid.
  unfold threadsAfter, traceOf.
  destruct (on_send w raw (m_threadId m)) as [e|[]]; cbn [fst snd].
  - split; [|done].
    rewrite List.filter_app, fetched_no_send. done.
  - split.
    + rewrite List.filter_app, fetched_no_send.
      unfold markReadTail. by destruct (markReadOutcome w email).
    + intros _. split; [|split; [done|apply lookup_insert_eq]].
      apply elem_of_app. right.
      do 3 (apply elem_of_cons; right). apply elem_of_cons. by left.
Qed.

Lemma clarification_sends_one_reply_witness :
  (extracted rt0 asksBack refundRequest = inr refundEmail
   /\ startsWith (subjectIn refundEmail) "Analysis:" = true
   /\ classification asksBack refundEmail = inr clarifyText
   /\ startsWith clarifyText "Clarify:" = true)
  /\ threadsAfter (exec asksBack (processEmail rt0 refundRequest) ∅)
     !! "t1"%string = Some (ThreadRecord "m1").
Proof.
  assert (extracted rt0 asksBack refundRequest = inr refundEmail
   /\ startsWith (subjectIn refundEmail) "Analysis:" = true
   /\ classification asksBack refundEmail = inr clarifyText
   /\ startsWith clarifyText "Clarify:" = true) as H
    by (vm_compute; repeat split; reflexivity).
  split; [exact H|].
  destruct H as (H1 & H2 & H3 & H4).
  apply (proj2 (clarification_sends_one_reply_then_tracks rt0 asksBack
                  refundRequest ∅ refundEmail clarifyText H1 H2 H3 H4)).
  reflexivity.
Defined.

(** C3 as stated fails when the send fails: the email is processed and its
    classification starts with the marker, yet the one send issued is
    rejected, so no reply goes out, and the store holds no record for the
    thread afterwards. *)
Lemma clarification_send_failure_leaves_untracked :
  extracted rt0 sendFails refundRequest = inr refundEmail
  /\ startsWith (subjectIn refundEmail) "Analysis:" = true
  /\ classification sendFails refundEmail = inr clarifyText
  /\ startsWith clarifyText "Clarify:" = true
  /\ sendOutcome rt0 sendFails refundRequest refundEmail clarifyText = down
  /\ List.filter isSend
       (traceOf (exec sendFails (processEmail rt0 refundRequest) ∅))
     = [Op (replyTo rt0 refundRequest refundEmail clarifyText)]
  /\ threadsAfter (exec sendFails (processEmail rt0 refundRequest) ∅)
     !! "t1"%string = None.
Proof. vm_compute. repeat split; reflexivity. Qed.

(** The sends and the store insertions of a run of [processEmail]. *)
Lemma sends_of_processEmail rt w m st :
  List.filter isSend (traceOf (exec w (processEmail rt m) st)) =
  match extracted rt w m with
  | inr email =>
      if startsWith (subjectIn email) "Analysis:" then
        match classification w email with
        | inr text =>
            if startsWith text "Clarify:"
            then [Op (replyTo rt m email text)] else []
        | inl _ => []
        end
      else []
  | inl _ => []
  end.
Proof.
  rewrite exec_processEmail. unfold traceOf, markReadTail.
  destruct (extracted rt w m) as [e|email]; cbn [snd];
    [apply fetched_no_send|].
  destruct (startsWith (subjectIn email) "Analysis:"); cbn [snd].
  2: { by rewrite List.filter_app, fetched_no_send. }
  destruct (classification w email) as [e|text]; cbn [snd].
  { by rewrite List.filter_app, fetched_no_send. }
  destruct (startsWith text "Clarify:").
  - destruct (sendOutcome rt w m email text) as [e|[]]; cbn [snd];
      rewrite List.filter_app, fetched_no_send; [done|].
    by destruct (markReadOutcome w email).
  - cbn [snd]. rewrite List.filter_app, fetched_no_send.
    by destruct (markReadOutcome w email).
Qed.

Lemma tracks_of_processEmail rt w m st :
  List.filter isTrack (traceOf (exec w (processEmail rt m) st)) =
  match extracted rt w m with
  | inr email =>
      if startsWith (subjectIn email) "Analysis:" then
        match classification w email with
        | inr text =>
            if startsWith text "Clarify:" then
              match sendOutcome rt w m email text with
              | inr _ => [trackOf email]
              | inl _ => []
              end
            else []
        | inl _ => []
        end
      else []
  | inl _ => []
  end.
Proof.
  assert (List.filter isTrack (fetched rt w m) = []) as Hf.
  { eapply filter_none; [|apply fetched_attachments]. by intros a [aid ->]. }
  rewrite exec_processEmail. unfold traceOf, markReadTail.
  destruct (extracted rt w m) as [e|email]; cbn [snd]; [done|].
  destruct (startsWith (subjectIn email) "Analysis:"); cbn [snd].
  2: { by rewrite List.filter_app, Hf. }
  destruct (classification w email) as [e|text]; cbn [snd].
  { by rewrite List.filter_app, Hf. }
  destruct (startsWith text "Clarify:").
  - destruct (sendOutcome rt w m email text) as [e|[]]; cbn [snd];
      rewrite List.filter_app, Hf; [done|].
    by destruct (markReadOutcome w email).
  - cbn [snd]. rewrite List.filter_app, Hf.
    by destruct (markReadOutcome w email).
Qed.

Lemma in_filter_true {A} (f : A -> bool) (a : A) l :
  a ∈ l -> f a = true -> a ∈ List.filter f l.
Proof.
  rewrite !list_elem_of_In. intros Hin Hf. apply List.filter_In. by split.
Qed.

(** C6, amended.  For every processed email, a failure of the
    classification, of the reply send or of the mark-read call is caught by
    [processEmail] (which returns normally) and logged.  When the
    classification or the reply send fails, the store is as it was before.
    When the mark-read call fails, the store keeps the update the branch
    has made: the thread's record set in the clarification branch, removed
    in the other one. *)
Theorem step_failures_are_caught rt w m st email :
  extracted rt w m = inr email ->
  startsWith (subjectIn email) "Analysis:" = true ->
  outcome (exec w (processEmail rt m) st) = inr tt
  /\ (forall e,
        classification w email = inl e ->
        threadsAfter (exec w (processEmail rt m) st) = st
        /\ errorLine email e ∈ traceOf (exec w (processEmail rt m) st))
  /\ (forall text e,
        classification w email = inr text ->
        startsWith text "Clarify:" = true ->
        sendOutcome rt w m email text = inl e ->
        threadsAfter (exec w (processEmail rt m) st) = st
        /\ errorLine email e ∈ traceOf (exec w (processEmail rt m) st))
  /\ (forall text e,
        classification w email = inr text ->
        markReadOutcome w email = inl e ->
        (startsWith text "Clarify:" = true ->
         sendOutcome rt w m email text = inr tt ->
         threadsAfter (exec w (processEmail rt m) st)
         = <[m_threadId m := ThreadRecord (m_id m)]> st
         /\ errorLine email e ∈ traceOf (exec w (processEmail rt m) st))
        /\ (startsWith text "Clarify:" = false ->
            threadsAfter (exec w (processEmail rt m) st)
            = delete (m_threadId m) st
            /\ errorLine email e ∈ traceOf (exec w (processEmail rt m) st))).
Proof.
  intros He Hs.
  destruct (extracted_fields _ _ _ _ He) as (Hid & Htid & _).
  rewrite exec_processEmail, He, Hs, <- Hid, <- Htid.
  unfold outcome, threadsAfter, traceOf, markReadTail.
  split; [|split; [|split]].
  - destruct (classification w email) as [e|text]; [done|].
    destruct (startsWith text "Clarify:"); [|done].
    by destruct (sendOutcome rt w m email text).
  - intros e Hc. rewrite Hc. cbn [fst snd]. split; [done|]. set_solver.
  - intros text e Hc Hk Hsend. rewrite Hc, Hk, Hsend. cbn [fst snd].
    split; [done|]. set_solver.
  - intros text e Hc Hmark. rewrite Hc, Hmark. split.
    + intros Hk Hsend. rewrite Hk, Hsend. cbn [fst snd].
      split; [done|]. set_solver.
    + intros Hk. rewrite Hk. cbn [fst snd]. split; [done|].
      unfold understoodLines. set_solver.
Qed.

Lemma step_failures_are_caught_witness :
  (extracted rt0 markReadFails refundRequest = inr refundEmail
   /\ startsWith (subjectIn refundEmail) "Analysis:" = true)
  /\ outcome (exec markReadFails (processEmail rt0 refundRequest) ∅) = inr tt.
Proof.
  assert (extracted rt0 markReadFails refundRequest = inr refundEmail
   /\ startsWith (subjectIn refundEmail) "Analysis:" = true) as H
    by (vm_compute; repeat split; reflexivity).
  split; [exact H|].
  destruct H as (H1 & H2).
  exact (proj1 (step_failures_are_caught rt0 markReadFails refundRequest ∅
                  refundEmail H1 H2)).
Defined.

(** C6 as stated fails when the mark-read call fails: the classification and
    the send have succeeded, the mark-read call is rejected, and the store,
    empty before, holds the thread's record afterwards. *)
Lemma mark_read_failure_keeps_the_update :
  extracted rt0 markReadFails refundRequest = inr refundEmail
  /\ startsWith (subjectIn refundEmail) "Analysis:" = true
  /\ classification markReadFails refundEmail = inr clarifyText
  /\ sendOutcome rt0 markReadFails refundRequest refundEmail clarifyText = ok
  /\ markReadOutcome markReadFails refundEmail = down
  /\ outcome (exec markReadFails (processEmail rt0 refundRequest) ∅) = inr tt
  /\ threadsAfter (exec markReadFails (processEmail rt0 refundRequest) ∅)
     !! "t1"%string = Some (ThreadRecord "m1")
  /\ threadsAfter (exec markReadFails (processEmail rt0 refundRequest) ∅)
     <> (∅ : store).
Proof.
  repeat split; try (vm_compute; reflexivity).
  intros H.
  assert (threadsAfter (exec markReadFails (processEmail rt0 refundRequest) ∅)
          !! "t1"%string = Some (ThreadRecord "m1")) as H1
    by (vm_compute; reflexivity).
  rewrite H in H1. by rewrite lookup_empty in H1.
Qed.

(** A send of [processEmail] carries the reply built from the message and
    from some text. *)
Lemma send_in_processEmail rt w m st raw tid :
  Op (MessagesSend raw tid) ∈ traceOf (exec w (processEmail rt m) st) ->
  exists text,
    raw = base64url rt
            (String.concat nl
               (replyLines (originalSender m) (originalSubject m) text
                  (messageIdOf m)))
    /\ tid = m_threadId m.
Proof.
  intros Hin. apply (in_filter_true isSend) in Hin; [|done].
  rewrite sends_of_processEmail in Hin.
  destruct (extracted rt w m) as [e|email] eqn:He; [no_event Hin|].
  destruct (extracted_fields _ _ _ _ He) as (Hid & Htid & Hfrom & Hsubj).
  destruct (startsWith (subjectIn email) "Analysis:");
    [|no_event Hin].
  destruct (classification w email) as [e|text];
    [no_event Hin|].
  destruct (startsWith text "Clarify:"); [|no_event Hin].
  apply list_elem_of_singleton in Hin.
  apply (f_equal sendArgs) in Hin. cbn in Hin.
  injection Hin as -> ->.
  exists text. unfold replyRaw, rawMessage. by rewrite Hfrom, Hsubj.
Qed.

(** ** Attachments *)

Lemma exec_fetchAttachments_fails w mid parts acc st part filename aid e :
  part ∈ parts ->
  attachmentRef part = Some (filename, aid) ->
  on_attachment w mid aid = inl e ->
  exists e', outcome (exec w (fetchAttachments mid parts acc) st) = inl e'.
Proof.
  intros Hin Href Hfail. revert acc.
  induction parts as [|p rest IH]; intros acc; [no_event Hin|].
  cbn [fetchAttachments].
  destruct (attachmentRef p) as [[f a]|] eqn:Hp.
  - rewrite exec_bind. cbn [exec call perform observe].
    destruct (on_attachment w mid a) as [e0|d] eqn:Ha; cbn [exec]; [by eexists|].
    apply elem_of_cons in Hin as [->|Hin].
    + rewrite Href in Hp. injection Hp as <- <-. congruence.
    + destruct (IH Hin (acc ++ [Attachment f (p_mimeType p) d])) as [e' He'].
      exists e'. unfold outcome in *.
      destruct (exec w (fetchAttachments mid rest _) st) as [[r st2] tr2].
      by simpl in *.
  - apply elem_of_cons in Hin as [->|Hin]; [congruence|]. by apply IH.
Qed.

(** C9.  When the fetch of one attachment of a message fails, [extractEmail]
    returns no email: it ends in an error, and the error reaches the caller,
    [processEmail], which ends in the same error without touching the
    store. *)
Theorem attachment_failure_fails_extraction
    rt w m st parts part filename aid e :
  pl_parts (m_payload m) = Some parts ->
  part ∈ parts ->
  attachmentRef part = Some (filename, aid) ->
  on_attachment w (m_id m) aid = inl e ->
  exists e',
    outcome (exec w (extractEmail rt m) st) = inl e'
    /\ outcome (exec w (processEmail rt m) st) = inl e'
    /\ threadsAfter (exec w (processEmail rt m) st) = st.
Proof.
  intros Hparts Hin Href Hfail.
  assert (exists e', extracted rt w m = inl e') as [e' He'].
  { unfold extracted, extractEmail. rewrite exec_bind.
    destruct (exec w (extractBody rt (m_payload m)) ∅)
      as [[[e0|body] st1] tr1]; [by eexists|].
    rewrite exec_bind, Hparts.
    destruct (exec_fetchAttachments_fails w (m_id m) parts [] st1
                part filename aid e Hin Href Hfail) as [e' He'].
    exists e'. unfold outcome in He'.
    destruct (exec w (fetchAttachments (m_id m) parts []) st1)
      as [[r st2] tr2].
    simpl in He'. by subst r. }
  exists e'.
  rewrite exec_processEmail, exec_extractEmail, He'. done.
Qed.

Lemma attachment_failure_fails_extraction_witness :
  (pl_parts (m_payload invoiceRequest) = Some invoiceParts
   /\ invoicePdf ∈ invoiceParts
   /\ attachmentRef invoicePdf = Some ("invoice.pdf"%string, "att-1"%string)
   /\ on_attachment attachmentFails "m4" "att-1"
      = inl (Rejected "attachment unavailable"))
  /\ exists e',
       outcome (exec attachmentFails (extractEmail rt0 invoiceRequest) ∅)
       = inl e'
       /\ outcome (exec attachmentFails (processEmail rt0 invoiceRequest) ∅)
          = inl e'
       /\ threadsAfter (exec attachmentFails (processEmail rt0 invoiceRequest) ∅)
          = ∅.
Proof.
  assert (invoicePdf ∈ invoiceParts) as Hin.
  { apply list_elem_of_In. right. left. reflexivity. }
  split; [repeat split; try reflexivity; exact Hin|].
  exact (attachment_failure_fails_extraction rt0 attachmentFails
           invoiceRequest ∅ invoiceParts invoicePdf
           "invoice.pdf" "att-1" (Rejected "attachment unavailable")
           eq_refl Hin eq_refl eq_refl).
Defined.

(** ** The concurrent batch *)

Lemma perform_async w {R} (o : op R) st :
  is_async o = true -> (perform w o st).2 = st.
Proof. by destruct o. Qed.

Lemma perform_noHas w {R} (o : op R) st st' :
  noHas (Op o) -> (perform w o st).1 = (perform w o st').1.
Proof. by destruct o. Qed.

Lemma perform_replay w {R} (o : op R) st tr :
  replay (observe o ++ tr) st = replay tr (perform w o st).2.
Proof. by destruct o. Qed.

(** Running a program alone is starting it and finishing it. *)
Lemma start_finish w p st :
  exec w p st =
  let '(t, st1, tr1) := start w p st in
  let '(r, st2, tr2) := finish w t st1 in
  (r, st2, tr1 ++ tr2).
Proof.
  revert st. induction p as [a|e|R o k IH]; intros st; cbn [start exec].
  - done.
  - done.
  - destruct (is_async o) eqn:Ho.
    + cbn [finish].
      pose proof (perform_async w o st Ho) as Hst.
      destruct (perform w o st) as [r st1]. simpl in Hst. subst st1.
      cbn [fst]. by destruct (exec w (k r) st) as [[res st2] tr].
    + destruct (perform w o st) as [r st1]. rewrite IH.
      destruct (start w (k r) st1) as [[t st2] tr1].
      destruct (finish w t st2) as [[res st3] tr2].
      by rewrite app_assoc.
Qed.

(** The answers a program gets do not depend on [ongoingThreads] when it
    never reads it. *)
Lemma exec_noHas {A} w (p : prog A) st st' :
  ops_all noHas p ->
  outcome (exec w p st) = outcome (exec w p st')
  /\ traceOf (exec w p st) = traceOf (exec w p st').
Proof.
  revert st st'. induction p as [a|e|R o k IH]; intros st st' Hp; cbn [exec].
  - done.
  - done.
  - destruct Hp as [Ho Hk].
    pose proof (perform_noHas w o st st' Ho) as Hr.
    destruct (perform w o st) as [r st1], (perform w o st') as [r' st1'].
    simpl in Hr. subst r'.
    destruct (IH r st1 st1' (Hk r)) as [H1 H2].
    unfold outcome, traceOf in *.
    destruct (exec w (k r) st1) as [[res st2] tr].
    destruct (exec w (k r) st1') as [[res' st2'] tr'].
    simpl in *. by subst.
Qed.

Lemma exec_replay {A} w (p : prog A) st :
  threadsAfter (exec w p st) = replay (traceOf (exec w p st)) st.
Proof.
  revert st. induction p as [a|e|R o k IH]; intros st; cbn [exec]; try done.
  destruct (perform w o st) as [r st1] eqn:E.
  specialize (IH r st1). unfold threadsAfter, traceOf in *.
  destruct (exec w (k r) st1) as [[res st2] tr].
  simpl in *. by rewrite (perform_replay w), E.
Qed.

Lemma start_replay w p st :
  (start w p st).1.2 = replay (start w p st).2 st.
Proof.
  revert st. induction p as [a|e|R o k IH]; intros st; cbn [start]; try done.
  destruct (is_async o) eqn:Ho.
  - simpl. rewrite <- (app_nil_r (observe o)), (perform_replay w).
    by rewrite perform_async.
  - destruct (perform w o st) as [r st1] eqn:E.
    specialize (IH r st1).
    destruct (start w (k r) st1) as [[t st2] tr].
    simpl in *. by rewrite (perform_replay w), E.
Qed.

Lemma start_ops_all P w p st :
  ops_all P p -> task_ops_all P (start w p st).1.1.
Proof.
  revert st. induction p as [a|e|R o k IH]; intros st Hp; cbn [start]; try done.
  destruct Hp as [Ho Hk]. destruct (is_async o).
  - simpl. done.
  - destruct (perform w o st) as [r st1].
    specialize (IH r st1 (Hk r)).
    by destruct (start w (k r) st1) as [[t st2] tr].
Qed.

Lemma remaining_any w t st :
  task_ops_all noHas t -> traceOf (finish w t st) = remaining w t.
Proof.
  destruct t as [R o k|r]; [|done]. intros [Ho Hk].
  unfold remaining, traceOf. cbn [finish].
  rewrite (perform_noHas w o st ∅ Ho).
  apply (exec_noHas w _ st ∅ (Hk _)).
Qed.

Lemma eventsOf_app i l1 l2 :
  eventsOf i (l1 ++ l2) = eventsOf i l1 ++ eventsOf i l2.
Proof. apply omap_app. Qed.

Lemma eventsOf_same i tr : eventsOf i (map (Ev (Task i)) tr) = tr.
Proof.
  induction tr as [|a tr IH]; [done|].
  unfold eventsOf in *. cbn. rewrite decide_True by done. by rewrite IH.
Qed.

Lemma eventsOf_other i j tr : j <> i -> eventsOf i (map (Ev (Task j)) tr) = [].
Proof.
  intros Hne. induction tr as [|a tr IH]; [done|].
  unfold eventsOf in *. cbn. by rewrite decide_False.
Qed.

Lemma eventsOf_noted i rej t : eventsOf i (noteRejection rej t).2 = [].
Proof. destruct t as [R o k|[e|[]]]; try done. by destruct rej. Qed.

Lemma replay_app tr1 tr2 st : replay (tr1 ++ tr2) st = replay tr2 (replay tr1 st).
Proof. apply fold_left_app. Qed.

Lemma what_tagged a tr : map what (map (Ev a) tr) = tr.
Proof. induction tr as [|x tr IH]; [done|]. cbn. by rewrite IH. Qed.

Lemma replay_noted rej t st : replay (map what (noteRejection rej t).2) st = st.
Proof. destruct t as [R o k|[e|[]]]; try done. by destruct rej. Qed.

Lemma noted_poll rej t :
  Forall (fun ev => who ev = Poll -> exists e, ev = pollError e)
    (noteRejection rej t).2.
Proof.
  destruct t as [R o k|[e|[]]]; try by constructor.
  destruct rej; repeat constructor. by exists e.
Qed.

Lemma tagged_poll i tr :
  Forall (fun ev => who ev = Poll -> exists e, ev = pollError e)
    (map (Ev (Task i)) tr).
Proof. induction tr; by constructor. Qed.

Lemma resume_good : goodRun resume.
Proof.
  intros w [R o k|r] st Ht; [|done]. destruct Ht as [Ho Hk].
  cbn [resume]. set (r := (perform w o st).1).
  split; [by apply start_ops_all|]. split; [apply start_replay|].
  unfold remaining at 1. cbn [finish].
  rewrite <- (perform_noHas w o st ∅ Ho). fold r.
  pose proof (proj2 (exec_noHas w (k r) ∅ st (Hk r))) as Htr.
  unfold traceOf in Htr. rewrite Htr, start_finish.
  pose proof (start_ops_all noHas w (k r) st (Hk r)) as Ht'.
  pose proof (remaining_any w (start w (k r) st).1.1
                (start w (k r) st).1.2 Ht') as Hrem.
  unfold traceOf in Hrem.
  destruct (start w (k r) st) as [[t' st1] tr1]. cbn [fst snd] in *.
  destruct (finish w t' st1) as [[res st2] tr2]. cbn [snd] in *.
  by rewrite Hrem.
Qed.

Lemma complete_good : goodRun complete.
Proof.
  intros w t st Ht. unfold complete.
  pose proof (remaining_any w t st Ht) as Hrem. unfold traceOf in Hrem.
  assert ((finish w t st).1.2 = replay (finish w t st).2 st) as Hst.
  { destruct t as [R o k|r]; [|done]. cbn [finish]. apply exec_replay. }
  destruct (finish w t st) as [[res st1] tr]. cbn [fst snd] in *.
  split; [done|]. split; [done|].
  rewrite Hrem. unfold remaining. cbn. by rewrite app_nil_r.
Qed.

(** *** The operations of a task *)

Lemma processEmail_ops rt m : ops_all taskOp (processEmail rt m).
Proof.
  unfold processEmail.
  apply ops_all_bind.
  { apply ops_all_await; [done|]. by apply extractEmail_ops. }
  intros email. destruct (negb _); [by apply ops_all_call|].
  apply ops_all_try_catch; [|intros e; by apply ops_all_call].
  apply ops_all_bind.
  { apply ops_all_await; [done|]. by apply ops_all_call. }
  intros aiResponse.
  apply ops_all_bind; [|intros _; by apply ops_all_call].
  destruct (startsWith aiResponse "Clarify:").
  - apply ops_all_bind.
    { apply ops_all_await; [done|]. by apply ops_all_call. }
    intros _. apply ops_all_bind; [by apply ops_all_call|].
    intros _. by apply ops_all_call.
  - apply ops_all_bind; [by apply ops_all_call|].
    intros _. apply ops_all_bind; [by apply ops_all_call|].
    intros _. by apply ops_all_call.
Qed.

Lemma taskOp_noHas a : taskOp a -> noHas a.
Proof. by destruct a as [R []]. Qed.

Lemma headAsync_await {A} (p : prog A) :
  ops_all asyncOp p -> headAsync (await p).
Proof. destruct p; simpl; try done. by intros [Ho _]. Qed.

Lemma headAsync_await_head {A} (p : prog A) : headAsync p -> headAsync (await p).
Proof. by destruct p. Qed.

Lemma headAsync_bind {A B} (p : prog A) (f : A -> prog B) :
  headAsync p -> headAsync (bind p f).
Proof. by destruct p. Qed.

Lemma processEmail_headAsync rt m : headAsync (processEmail rt m).
Proof.
  unfold processEmail. apply headAsync_bind, headAsync_await.
  by apply extractEmail_ops.
Qed.

Lemma start_headAsync w p st : headAsync p -> (start w p st).1.2 = st.
Proof. destruct p as [a|e|R o k]; simpl; try done. by intros ->. Qed.

Lemma start_remaining w p st :
  task_ops_all noHas (start w p st).1.1 ->
  (start w p st).2 ++ remaining w (start w p st).1.1 = traceOf (exec w p st).
Proof.
  intros Ht. rewrite start_finish.
  pose proof (remaining_any w _ (start w p st).1.2 Ht) as Hrem.
  unfold traceOf in *.
  destruct (start w p st) as [[t st1] tr1]. cbn [fst snd] in *.
  destruct (finish w t st1) as [[res st2] tr2]. cbn [snd] in *.
  by rewrite Hrem.
Qed.

(** A task starts without changing [ongoingThreads], and never reads it
    afterwards. *)
Lemma start_eligibleTask rt w m st :
  (start w (eligibleTask rt m) st).1.2 = st
  /\ task_ops_all noHas (start w (eligibleTask rt m) st).1.1.
Proof.
  assert (ops_all noHas (await (processEmail rt m))) as Hops.
  { apply ops_all_await; [done|].
    eapply ops_all_impl; [apply taskOp_noHas|apply processEmail_ops]. }
  assert (headAsync (await (processEmail rt m))) as Hhead.
  { apply headAsync_await_head, processEmail_headAsync. }
  unfold eligibleTask.
  destruct (startsWith (subjectOf m) "Analysis:"); cbn [bind].
  - split; [by apply start_headAsync|by apply start_ops_all].
  - cbn [call bind start is_async perform].
    destruct (st !! m_threadId m) as [r|].
    + pose proof (start_headAsync w _ st Hhead) as H1.
      pose proof (start_ops_all noHas w _ st Hops) as H2.
      destruct (start w (await (processEmail rt m)) st) as [[t st1] tr1].
      by simpl in *.
    + done.
Qed.

(** *** The invariant *)

Lemma turn_inv rt w fulls st0 run s i :
  goodRun run ->
  batchInv rt w fulls st0 (length fulls) s ->
  batchInv rt w fulls st0 (length fulls) (turn run w s i).
Proof.
  intros Hrun (Hlen & Hst & Hout & Htasks & Hpoll). unfold turn.
  destruct (tasks s !! i) as [t|] eqn:Hi; [|done].
  assert (i < length fulls)%nat as Hlt.
  { rewrite <- Hlen. by eapply lookup_lt_Some. }
  destruct (lookup_lt_is_Some_2 fulls i Hlt) as [m Hm].
  destruct (Htasks i m Hlt Hm) as (t0 & Ht0 & Hfree & Htrace).
  rewrite Hi in Ht0. injection Ht0 as <-.
  destruct (Hrun w t (threads s) Hfree) as (Hfree' & Hst' & Hrem).
  destruct (run w t (threads s)) as [[t' st'] tr]. cbn [fst snd] in *.
  pose proof (eventsOf_noted i (rejected s) t') as Hnoted.
  pose proof (replay_noted (rejected s) t') as Hrnoted.
  pose proof (noted_poll (rejected s) t') as Hpnoted.
  destruct (noteRejection (rejected s) t') as [rej' noted] eqn:Hnote.
  cbn [snd] in *.
  repeat split; cbn [tasks threads log].
  - by rewrite length_insert.
  - rewrite !map_app, what_tagged, !replay_app, <- Hst, Hrnoted. done.
  - intros j Hj. rewrite !eventsOf_app, (Hout j Hj).
    rewrite eventsOf_other by lia.
    pose proof (eventsOf_noted j (rejected s) t') as Hn.
    rewrite Hnote in Hn. cbn [snd] in Hn. by rewrite Hn.
  - intros j mj Hj Hmj. destruct (decide (j = i)) as [->|Hne].
    + exists t'. split; [apply list_lookup_insert_eq; lia|]. split; [done|].
      rewrite Hm in Hmj. injection Hmj as <-.
      rewrite !eventsOf_app, eventsOf_same, Hnoted, app_nil_r.
      by rewrite <- Htrace, Hrem, app_assoc.
    + destruct (Htasks j mj Hj Hmj) as (tj & Htj & Hfj & Htrj).
      exists tj. split; [by rewrite list_lookup_insert_ne|]. split; [done|].
      rewrite !eventsOf_app, eventsOf_other by done.
      pose proof (eventsOf_noted j (rejected s) t') as Hn.
      rewrite Hnote in Hn. cbn [snd] in Hn. by rewrite Hn, !app_nil_r.
  - apply Forall_app. split; [done|]. apply Forall_app.
    split; [apply tagged_poll|done].
Qed.

Lemma turns_inv rt w fulls st0 run l s :
  goodRun run ->
  batchInv rt w fulls st0 (length fulls) s ->
  batchInv rt w fulls st0 (length fulls) (fold_left (turn run w) l s).
Proof.
  intros Hrun. revert s. induction l as [|i l IH]; intros s Hs; [done|].
  cbn [fold_left]. apply IH. by apply turn_inv.
Qed.

Lemma startAll_inv rt w fulls st0 started rest s :
  fulls = started ++ rest ->
  batchInv rt w fulls st0 (length started) s ->
  threads s = st0 ->
  batchInv rt w fulls st0 (length fulls)
    (startAll rt w (length started) rest s).
Proof.
  revert started s. induction rest as [|m rest IH]; intros started s Hf Hs Hst0.
  - cbn [startAll]. rewrite app_nil_r in Hf. by subst fulls.
  - cbn [startAll].
    destruct (start_eligibleTask rt w m (threads s)) as [Hkeep Hfree].
    pose proof (start_remaining w (eligibleTask rt m) (threads s) Hfree)
      as Htrace.
    pose proof (start_replay w (eligibleTask rt m) (threads s)) as Htr.
    destruct (start w (eligibleTask rt m) (threads s)) as [[t st'] tr].
    cbn [fst snd] in *. subst st'.
    pose proof (replay_noted (rejected s) t) as Hrnoted.
    pose proof (noted_poll (rejected s) t) as Hpnoted.
    destruct (noteRejection (rejected s) t) as [rej' noted] eqn:Hnote.
    cbn [snd] in *.
    destruct Hs as (Hlen & Hst & Hout & Htasks & Hpoll).
    assert (fulls !! length started = Some m) as Hm.
    { rewrite Hf. by rewrite list_lookup_middle. }
    replace (S (length started)) with (length (started ++ [m]))
      by (rewrite length_app; simpl; lia).
    apply IH; [by rewrite <- app_assoc| |done].
    repeat split; cbn [tasks threads log].
    + rewrite !length_app. simpl. lia.
    + rewrite !map_app, what_tagged, !replay_app, <- Hst, Hrnoted.
      done.
    + intros j Hj. rewrite length_app in Hj. simpl in Hj.
      rewrite !eventsOf_app, (Hout j) by lia.
      rewrite eventsOf_other by lia.
      pose proof (eventsOf_noted j (rejected s) t) as Hn.
      rewrite Hnote in Hn. cbn [snd] in Hn. by rewrite Hn.
    + intros j mj Hj Hmj. rewrite length_app in Hj. simpl in Hj.
      pose proof (eventsOf_noted j (rejected s) t) as Hn.
      rewrite Hnote in Hn. cbn [snd] in Hn.
      destruct (decide (j = length started)) as [->|Hne].
      * exists t. split.
        { rewrite lookup_app_r by lia. rewrite Hlen, Nat.sub_diag. done. }
        split; [done|].
        rewrite Hm in Hmj. injection Hmj as <-.
        rewrite !eventsOf_app, (Hout (length started)) by lia.
        rewrite eventsOf_same, Hn, app_nil_r. cbn [app].
        by rewrite Htrace, Hst0.
      * destruct (Htasks j mj) as (tj & Htj & Hfj & Htrj); [lia|done|].
        exists tj. split; [by rewrite lookup_app_l by lia|]. split; [done|].
        rewrite !eventsOf_app, eventsOf_other by done.
        by rewrite Hn, !app_nil_r.
    + apply Forall_app. split; [done|]. apply Forall_app.
      split; [apply tagged_poll|done].
Qed.

(** *** The end of the batch *)

Lemma turn_length run w s i : length (tasks (turn run w s i)) = length (tasks s).
Proof.
  unfold turn. destruct (tasks s !! i) as [t|]; [|done].
  destruct (run w t (threads s)) as [[t' st'] tr].
  destruct (noteRejection (rejected s) t') as [rej' noted]. cbn.
  apply length_insert.
Qed.

Lemma turns_length run w l s :
  length (tasks (fold_left (turn run w) l s)) = length (tasks s).
Proof.
  revert s. induction l as [|i l IH]; intros s; cbn [fold_left]; [done|].
  by rewrite IH, turn_length.
Qed.

Lemma turn_complete_settles w s a :
  (forall j t, (j < a)%nat -> tasks s !! j = Some t -> isSettled t) ->
  forall j t,
    (j < S a)%nat -> tasks (turn complete w s a) !! j = Some t -> isSettled t.
Proof.
  intros Hs j t Hj. unfold turn.
  destruct (tasks s !! a) as [ta|] eqn:Ha.
  - unfold complete.
    destruct (finish w ta (threads s)) as [[r st'] tr].
    destruct (noteRejection (rejected s) (Settled r)) as [rej' noted]. cbn.
    destruct (decide (j = a)) as [->|Hne].
    + rewrite list_lookup_insert_eq by (by eapply lookup_lt_Some).
      by intros [= <-].
    + rewrite list_lookup_insert_ne by done. apply Hs. lia.
  - intros Hjt. destruct (decide (j = a)) as [->|Hne]; [congruence|].
    apply (Hs j); [lia|done].
Qed.

Lemma complete_all_settles w b a s :
  (forall j t, (j < a)%nat -> tasks s !! j = Some t -> isSettled t) ->
  forall j t,
    (j < a + b)%nat ->
    tasks (fold_left (turn complete w) (seq a b) s) !! j = Some t ->
    isSettled t.
Proof.
  revert a s. induction b as [|b IH]; intros a s Hs j t Hj; cbn [seq fold_left].
  - apply Hs. lia.
  - apply (IH (S a)); [|lia]. by apply turn_complete_settles.
Qed.

Lemma runBatch_inv rt w sch fulls st :
  batchInv rt w fulls st (length fulls) (runBatch rt w sch fulls st).
Proof.
  unfold runBatch. do 2 (apply turns_inv; [apply complete_good || apply resume_good|]).
  apply (startAll_inv rt w fulls st [] fulls); [done| |done].
  repeat split; cbn; try done. intros i m Hi. lia.
Qed.

Lemma runBatch_settled rt w sch fulls st j t :
  tasks (runBatch rt w sch fulls st) !! j = Some t -> isSettled t.
Proof.
  intros Hj. unfold runBatch in *.
  set (s1 := fold_left (turn resume w) (picks sch)
               (startAll rt w 0 fulls (Pool [] st false []))) in *.
  assert (j < length (tasks s1))%nat as Hlt.
  { apply lookup_lt_Some in Hj. by rewrite turns_length in Hj. }
  eapply (complete_all_settles w (length (tasks s1)) 0 s1); [|exact Hlt|exact Hj].
  intros ? ? ?. lia.
Qed.

(** Whatever the schedule, the operations of a task in the batch are those
    of its callback run alone from the map the batch started with. *)
Lemma batch_projection rt w sch fulls st i m :
  fulls !! i = Some m ->
  eventsOf i (log (runBatch rt w sch fulls st))
  = traceOf (exec w (eligibleTask rt m) st).
Proof.
  intros Hm.
  destruct (runBatch_inv rt w sch fulls st) as (_ & _ & _ & Htasks & _).
  destruct (Htasks i m) as (t & Ht & _ & Htrace);
    [by eapply lookup_lt_Some|done|].
  pose proof (runBatch_settled _ _ _ _ _ _ _ Ht) as Hs.
  destruct t as [R o k|r]; [done|].
  unfold remaining in Htrace. cbn in Htrace. by rewrite app_nil_r in Htrace.
Qed.

(** The map after the batch is what the logged operations make of the map
    before. *)
Lemma batch_store rt w sch fulls st :
  threads (runBatch rt w sch fulls st)
  = replay (map what (log (runBatch rt w sch fulls st))) st.
Proof. by destruct (runBatch_inv rt w sch fulls st) as (_ & Hst & _). Qed.

Lemma in_eventsOf i a l : Ev (Task i) a ∈ l -> a ∈ eventsOf i l.
Proof.
  intros Hin. unfold eventsOf. apply list_elem_of_omap.
  exists (Ev (Task i) a). split; [done|]. cbn. by rewrite decide_True.
Qed.

(** An event of the batch is the error line of [pollEmails] or an operation
    of the callback of a message. *)
Lemma batch_events rt w sch fulls st ev :
  ev ∈ log (runBatch rt w sch fulls st) ->
  (exists e, ev = pollError e)
  \/ (exists i m,
        who ev = Task i /\ fulls !! i = Some m
        /\ what ev ∈ traceOf (exec w (eligibleTask rt m) st)).
Proof.
  intros Hin.
  destruct (runBatch_inv rt w sch fulls st) as (_ & _ & Hout & _ & Hpoll).
  destruct ev as [[|i] a].
  - left. rewrite Forall_forall in Hpoll. by apply (Hpoll _ Hin).
  - right. apply in_eventsOf in Hin.
    destruct (decide (i < length fulls)%nat) as [Hlt|Hge].
    + destruct (lookup_lt_is_Some_2 fulls i Hlt) as [m Hm].
      exists i, m. repeat split; [done|].
      by rewrite <- (batch_projection rt w sch fulls st i m Hm).
    + rewrite Hout in Hin by lia. by apply elem_of_nil in Hin.
Qed.

(** ** The polling cycle *)

Lemma eventsOf_poll i (l : list anyop) : eventsOf i (map (Ev Poll) l) = [].
Proof.
  induction l as [|a l IH]; [done|]. unfold eventsOf in *. cbn. exact IH.
Qed.

Lemma fetches_tagged (refs : list messageRef) :
  map (fun msg => Ev Poll (Op (fetchOf msg))) refs
  = map (Ev Poll) (map (fun msg => Op (fetchOf msg)) refs).
Proof. by rewrite map_map. Qed.

(** A cycle whose fetches all succeed is the listing, the fetches and the
    batch. *)
Lemma pollEmails_batch rt w sch st fulls :
  fetchedMessages w sch = Some fulls ->
  exists refs,
    on_list w query 50 = inr (Some refs)
    /\ fetchAll w sch refs = inr fulls
    /\ pollEmails rt w sch st
       = (threads (runBatch rt w sch fulls st),
          Ev Poll (Op listing)
          :: map (fun msg => Ev Poll (Op (fetchOf msg))) refs
          ++ log (runBatch rt w sch fulls st)).
Proof.
  unfold fetchedMessages, pollEmails.
  destruct (on_list w query 50) as [e|[refs|]]; try done.
  cbn [default from_option id]. destruct refs as [|msg rest]; [done|].
  cbn [id].
  destruct (fetchAll w sch (msg :: rest)) as [e|fulls'] eqn:Hf; [done|].
  intros [= <-]. by exists (msg :: rest).
Qed.

Lemma cycle_projection rt w sch st fulls i m :
  fetchedMessages w sch = Some fulls ->
  fulls !! i = Some m ->
  eventsOf i (pollEmails rt w sch st).2
  = traceOf (exec w (eligibleTask rt m) st).
Proof.
  intros Hf Hm.
  destruct (pollEmails_batch rt w sch st fulls Hf) as (refs & _ & _ & ->).
  cbn [snd]. rewrite fetches_tagged.
  change (Ev Poll (Op listing) :: ?l) with (map (Ev Poll) [Op listing] ++ l).
  rewrite !eventsOf_app, !eventsOf_poll. cbn [app].
  by apply batch_projection.
Qed.

(** The callback run alone: the admission test, then [processEmail]. *)
Lemma exec_eligibleTask rt w m st :
  exec w (eligibleTask rt m) st =
  if startsWith (subjectOf m) "Analysis:" then exec w (processEmail rt m) st
  else
    match st !! m_threadId m with
    | Some _ =>
        (outcome (exec w (processEmail rt m) st),
         threadsAfter (exec w (processEmail rt m) st),
         Op (ThreadsHas (m_threadId m))
         :: traceOf (exec w (processEmail rt m) st))
    | None => (inr tt, st, [Op (ThreadsHas (m_threadId m))])
    end.
Proof.
  unfold eligibleTask.
  destruct (startsWith (subjectOf m) "Analysis:"); cbn [bind].
  - apply exec_await.
  - cbn [call bind exec perform observe].
    destruct (st !! m_threadId m) as [r|]; cbn [bind exec]; [|done].
    rewrite exec_await. unfold outcome, threadsAfter, traceOf.
    by destruct (exec w (processEmail rt m) st) as [[res st2] tr].
Qed.

Lemma eligibleTask_ops (P : anyop -> Prop) rt m :
  P (Op Yield) ->
  P (Op (ThreadsHas (m_threadId m))) ->
  (forall a, taskOp a -> P a) ->
  ops_all P (eligibleTask rt m).
Proof.
  intros HY HH HP. unfold eligibleTask.
  assert (ops_all P (await (processEmail rt m))) as Hp.
  { apply ops_all_await; [done|].
    eapply ops_all_impl; [apply HP|apply processEmail_ops]. }
  destruct (startsWith (subjectOf m) "Analysis:"); cbn [bind]; [done|].
  cbn [call bind ops_all]. split; [done|].
  intros [e|[|]]; cbn [bind ops_all]; done.
Qed.

(** C4.  In a cycle whose batch holds a message at index [i], if the subject
    of the message (as [pollEmails] reads it) does not start with
    ["Analysis:"] and its thread is not in the store when the cycle starts,
    then, whatever the schedule, the only operation the cycle performs for
    the message is the lookup of its thread in the store: no call of the
    model, no send, no mark-read call, and nothing that changes the
    store. *)
Theorem unadmitted_email_is_left_alone rt w sch st fulls i m :
  fetchedMessages w sch = Some fulls ->
  fulls !! i = Some m ->
  startsWith (subjectOf m) "Analysis:" = false ->
  st !! m_threadId m = None ->
  eventsOf i (pollEmails rt w sch st).2 = [Op (ThreadsHas (m_threadId m))]
  /\ replay (eventsOf i (pollEmails rt w sch st).2) st = st.
Proof.
  intros Hf Hm Hs Ht.
  rewrite (cycle_projection rt w sch st fulls i m Hf Hm).
  rewrite exec_eligibleTask, Hs, Ht. done.
Qed.

Lemma unadmitted_email_is_left_alone_witness :
  (fetchedMessages unrelatedMail inOrder = Some [hello]
   /\ [hello] !! 0%nat = Some hello
   /\ startsWith (subjectOf hello) "Analysis:" = false
   /\ (∅ : store) !! m_threadId hello = None)
  /\ eventsOf 0 (pollEmails rt0 unrelatedMail inOrder ∅).2
     = [Op (ThreadsHas "t9")].
Proof.
  assert (fetchedMessages unrelatedMail inOrder = Some [hello]
   /\ [hello] !! 0%nat = Some hello
   /\ startsWith (subjectOf hello) "Analysis:" = false
   /\ (∅ : store) !! m_threadId hello = None) as H
    by (vm_compute; repeat split; reflexivity).
  split; [exact H|].
  destruct H as (H1 & H2 & H3 & H4).
  exact (proj1 (unadmitted_email_is_left_alone rt0 unrelatedMail inOrder ∅
                  [hello] 0 hello H1 H2 H3 H4)).
Defined.

(** *** The listing *)

Lemma requestedCaps_none l :
  Forall (fun ev => isListing (what ev) = false) l -> requestedCaps l = [].
Proof.
  induction 1 as [|[a [R o]] l Ho _ IH]; [done|].
  unfold requestedCaps in *. cbn in *. destruct o; try done.
Qed.

Lemma batch_no_listing rt w sch fulls st :
  Forall (fun ev => isListing (what ev) = false)
    (log (runBatch rt w sch fulls st)).
Proof.
  apply Forall_forall. intros ev Hin.
  destruct (batch_events _ _ _ _ _ _ Hin) as [[e ->]|(i & m & _ & _ & Ha)];
    [done|].
  pose proof (exec_ops_all (fun a => isListing a = false) w
                (eligibleTask rt m) st) as Hall.
  rewrite Forall_forall in Hall. apply Hall; [|exact Ha].
  apply eligibleTask_ops; try done. by intros [R []].
Qed.

(** C8.  In every cycle, whatever the world, the schedule and the store,
    the trace holds exactly one listing call, the first event of the cycle,
    and the cap it asks for is 50: no listing call asks for more than 50
    messages. *)
Theorem listing_requests_at_most_50 rt w sch st :
  requestedCaps (pollEmails rt w sch st).2 = [50]
  /\ Forall (fun maxResults => maxResults <= 50)
       (requestedCaps (pollEmails rt w sch st).2)
  /\ head (pollEmails rt w sch st).2
     = Some (Ev Poll (Op (MessagesList query 50))).
Proof.
  assert (requestedCaps (pollEmails rt w sch st).2 = [50]
          /\ head (pollEmails rt w sch st).2
             = Some (Ev Poll (Op (MessagesList query 50)))) as [H1 H2].
  { unfold pollEmails.
    destruct (on_list w query 50) as [e|data]; [done|].
    destruct (default [] data) as [|msg rest] eqn:Hd; [done|].
    assert (requestedCaps
              (map (fun msg => Ev Poll (Op (fetchOf msg))) (msg :: rest)) = [])
      as Hfetches.
    { apply requestedCaps_none, Forall_forall. intros ev Hin.
      apply list_elem_of_fmap in Hin as (ref & -> & _). done. }
    destruct (fetchAll w sch (msg :: rest)) as [e|fulls]; cbn [snd].
    - split; [|done].
      change (Ev Poll (Op listing) :: ?l) with ([Ev Poll (Op listing)] ++ l).
      unfold requestedCaps in *. by rewrite !omap_app, Hfetches.
    - split; [|done].
      change (Ev Poll (Op listing) :: ?l) with ([Ev Poll (Op listing)] ++ l).
      unfold requestedCaps in *. rewrite !omap_app, Hfetches.
      fold (requestedCaps (log (runBatch rt w sch fulls st))).
      by rewrite (requestedCaps_none _ (batch_no_listing rt w sch fulls st)). }
  rewrite H1. repeat split; [|done]. by repeat constructor.
Qed.

(** *** Fetch failures *)

Lemma firstRejection_in {A} (rs : list (result A)) e :
  inl e ∈ rs -> exists e', firstRejection rs = Some e'.
Proof.
  induction rs as [|[e0|a] rs IH]; intros Hin.
  - by apply elem_of_nil in Hin.
  - by exists e0.
  - apply elem_of_cons in Hin as [?|Hin]; [done|]. by apply IH.
Qed.

(** C1, amended.  In a cycle whose listing returns messages, the fetch of
    every listed message is issued; when one of these fetches fails, the
    cycle stops there: [pollEmails] logs an error, the store is unchanged
    and no listed message is processed, whatever the schedule. *)
Theorem fetch_failure_aborts_the_cycle rt w sch st refs ref e :
  on_list w query 50 = inr (Some refs) ->
  ref ∈ refs ->
  on_get w (r_id ref) "full" = inl e ->
  exists e',
    pollEmails rt w sch st
    = (st,
       Ev Poll (Op listing)
       :: map (fun msg => Ev Poll (Op (fetchOf msg))) refs
       ++ [pollError e'])
    /\ forall i, eventsOf i (pollEmails rt w sch st).2 = [].
Proof.
  intros Hlist Hin Hfail.
  assert (exists e', fetchAll w sch refs = inl e') as [e' He'].
  { unfold fetchAll, promiseAll.
    destruct (firstRejection_in
                (map (fun msg => on_get w (r_id msg) "full") refs) e)
      as [e0 ->]; [|by eexists].
    apply list_elem_of_fmap. exists ref. by rewrite Hfail. }
  exists e'.
  assert (pollEmails rt w sch st
          = (st,
             Ev Poll (Op listing)
             :: map (fun msg => Ev Poll (Op (fetchOf msg))) refs
             ++ [pollError e'])) as Hrun.
  { unfold pollEmails. rewrite Hlist. cbn [default from_option id].
    destruct refs as [|msg rest]; [no_event Hin|].
    cbn [id]. by rewrite He'. }
  split; [done|]. intros i. rewrite Hrun. cbn [snd].
  rewrite fetches_tagged.
  change (Ev Poll (Op listing) :: ?l ++ [pollError e'])
    with (map (Ev Poll) [Op listing] ++ l
          ++ map (Ev Poll)
               [Op (ConsoleError [LStr "Error polling emails:"; LErr e'])]).
  by rewrite !eventsOf_app, !eventsOf_poll.
Qed.

Lemma fetch_failure_aborts_the_cycle_witness :
  (on_list firstFetchFails query 50
   = inr (Some [MessageRef "m1" "t1"; MessageRef "m5" "t5"])
   /\ MessageRef "m1" "t1" ∈ [MessageRef "m1" "t1"; MessageRef "m5" "t5"]
   /\ on_get firstFetchFails "m1" "full" = inl (Rejected "backend error"))
  /\ exists e',
       pollEmails rt0 firstFetchFails inOrder ∅
       = (∅,
          Ev Poll (Op listing)
          :: map (fun msg => Ev Poll (Op (fetchOf msg)))
               [MessageRef "m1" "t1"; MessageRef "m5" "t5"]
          ++ [pollError e'])
       /\ forall i, eventsOf i (pollEmails rt0 firstFetchFails inOrder ∅).2 = [].
Proof.
  assert (MessageRef "m1" "t1" ∈ [MessageRef "m1" "t1"; MessageRef "m5" "t5"])
    as Hin by (apply list_elem_of_In; left; reflexivity).
  split; [repeat split; try reflexivity; exact Hin|].
  exact (fetch_failure_aborts_the_cycle rt0 firstFetchFails inOrder ∅
           [MessageRef "m1" "t1"; MessageRef "m5" "t5"] (MessageRef "m1" "t1")
           (Rejected "backend error") eq_refl Hin eq_refl).
Defined.

(** C1 as stated fails: two requests are listed, the fetch of the first
    fails, the fetch of the second succeeds and the second is eligible, yet
    the cycle ends after the fetches with an error line: the second message
    is not processed (no classification, no mark-read call). *)
Lemma fetch_failure_stops_the_other_message :
  on_get firstFetchFails "m1" "full" = inl (Rejected "backend error")
  /\ on_get firstFetchFails "m5" "full" = inr orderStatus
  /\ startsWith (subjectOf orderStatus) "Analysis:" = true
  /\ pollEmails rt0 firstFetchFails inOrder ∅
     = (∅,
        [Ev Poll (Op (MessagesList query 50));
         Ev Poll (Op (MessagesGet "m1" "full"));
         Ev Poll (Op (MessagesGet "m5" "full"));
         pollError (Rejected "backend error")]).
Proof. vm_compute. repeat split; reflexivity. Qed.

(** *** Cycles that leave the store alone *)

Lemma replay_id tr st :
  Forall (fun a => isWrite a = false) tr -> replay tr st = st.
Proof.
  induction 1 as [|[R o] tr Ho _ IH]; [done|].
  unfold replay in *. cbn [fold_left]. destruct o; try done.
Qed.

Lemma cycle_store rt w sch st fulls :
  fetchedMessages w sch = Some fulls ->
  (pollEmails rt w sch st).1
  = replay (map what (log (runBatch rt w sch fulls st))) st.
Proof.
  intros Hf.
  destruct (pollEmails_batch rt w sch st fulls Hf) as (refs & _ & _ & ->).
  apply batch_store.
Qed.

Lemma cycle_store_unchanged rt w sch st fulls :
  fetchedMessages w sch = Some fulls ->
  (forall i m,
     fulls !! i = Some m ->
     Forall (fun a => isWrite a = false)
       (traceOf (exec w (eligibleTask rt m) st))) ->
  (pollEmails rt w sch st).1 = st.
Proof.
  intros Hf Hquiet. rewrite (cycle_store _ _ _ _ _ Hf).
  apply replay_id, Forall_forall. intros a Hin.
  apply list_elem_of_fmap in Hin as (ev & -> & Hin).
  destruct (batch_events _ _ _ _ _ _ Hin) as [[e ->]|(i & m & _ & Hm & Ha)];
    [done|].
  pose proof (Hquiet i m Hm) as Hall. rewrite Forall_forall in Hall.
  by apply Hall.
Qed.

(** C2 at the input where the code departs from it.  The thread ["t1"] is
    tracked, the sender's answer arrives in it under the subject
    ["Re: Analysis: refund request"], and the model would answer without
    the marker.  Whatever the schedule, the cycle admits the message (its
    thread is tracked) and [processEmail] skips it at the subject guard: the
    model is not called, the thread stays in the store and the message is
    not marked read. *)
Theorem follow_up_under_reply_subject_is_skipped sch :
  fetchedMessages followUpArrives sch = Some [followUp]
  /\ tracked_t1 !! m_threadId followUp = Some (ThreadRecord "m1")
  /\ extracted rt0 followUpArrives followUp = inr followUpEmail
  /\ classification followUpArrives followUpEmail = inr understoodText
  /\ startsWith understoodText "Clarify:" = false
  /\ eventsOf 0 (pollEmails rt0 followUpArrives sch tracked_t1).2
     = [Op (ThreadsHas "t1"); skipLine followUpEmail]
  /\ (pollEmails rt0 followUpArrives sch tracked_t1).1 = tracked_t1.
Proof.
  assert (fetchedMessages followUpArrives sch = Some [followUp]) as Hf
    by reflexivity.
  assert (traceOf (exec followUpArrives (eligibleTask rt0 followUp) tracked_t1)
          = [Op (ThreadsHas "t1"); skipLine followUpEmail]) as Htr
    by (vm_compute; reflexivity).
  repeat split; try (vm_compute; reflexivity).
  - by rewrite (cycle_projection rt0 followUpArrives sch tracked_t1
                  [followUp] 0 followUp Hf eq_refl).
  - apply (cycle_store_unchanged _ _ _ _ _ Hf).
    intros [|i] m Hm; [|done]. injection Hm as <-. rewrite Htr.
    by repeat constructor.
Qed.

(** *** The replies of a cycle *)

(** The operations of the callback are the lookup of the thread and those
    of [processEmail]. *)
Lemma eligibleTask_trace rt w m st a :
  a ∈ traceOf (exec w (eligibleTask rt m) st) ->
  a = Op (ThreadsHas (m_threadId m))
  \/ a ∈ traceOf (exec w (processEmail rt m) st).
Proof.
  rewrite exec_eligibleTask.
  destruct (startsWith (subjectOf m) "Analysis:"); [by right|].
  destruct (st !! m_threadId m); unfold traceOf at 1; cbn [snd]; intros Hin.
  - apply elem_of_cons in Hin as [->|Hin]; [by left|by right].
  - apply list_elem_of_singleton in Hin. by left.
Qed.

(** An event of a cycle is a step of [pollEmails] itself (the listing, a
    fetch, the error line) or an operation of the callback of a message of
    the batch. *)
Lemma cycle_events rt w sch st ev :
  ev ∈ (pollEmails rt w sch st).2 ->
  (who ev = Poll /\ isSend (what ev) = false)
  \/ (exists fulls i m,
        fetchedMessages w sch = Some fulls
        /\ who ev = Task i /\ fulls !! i = Some m
        /\ what ev ∈ traceOf (exec w (eligibleTask rt m) st)).
Proof.
  assert (forall refs : list messageRef,
            ev ∈ map (fun msg => Ev Poll (Op (fetchOf msg))) refs ->
            who ev = Poll /\ isSend (what ev) = false) as Hfetch.
  { intros refs Hin. by apply list_elem_of_fmap in Hin as (ref & -> & _). }
  destruct (fetchedMessages w sch) as [fulls|] eqn:Hf.
  - destruct (pollEmails_batch rt w sch st fulls Hf) as (refs & _ & _ & ->).
    cbn [snd]. intros Hin.
    apply elem_of_cons in Hin as [->|Hin]; [by left|].
    apply elem_of_app in Hin as [Hin|Hin]; [left; by eapply Hfetch|].
    destruct (batch_events _ _ _ _ _ _ Hin) as [[e ->]|(i & m & Hw & Hm & Ha)];
      [by left|].
    right. by exists fulls, i, m.
  - revert Hf. unfold fetchedMessages, pollEmails.
    destruct (on_list w query 50) as [e|data].
    { intros _ Hin. left. cbn [snd] in Hin.
      apply elem_of_cons in Hin as [->|Hin]; [done|].
      by apply list_elem_of_singleton in Hin as ->. }
    destruct (default [] data) as [|msg rest].
    { intros _ Hin. left. cbn [snd] in Hin.
      by apply list_elem_of_singleton in Hin as ->. }
    destruct (fetchAll w sch (msg :: rest)) as [e|fulls]; [|done].
    intros _ Hin. left. cbn [snd] in Hin.
    apply elem_of_cons in Hin as [->|Hin]; [done|].
    apply elem_of_app in Hin as [Hin|Hin]; [by eapply Hfetch|].
    by apply list_elem_of_singleton in Hin as ->.
Qed.

(** ** Tracked threads *)

(** An insertion in the store by [processEmail] is the one of the
    clarification branch, and comes right after the send has succeeded and
    the line that says so. *)
Lemma track_in_processEmail rt w m st tid r :
  Op (ThreadsSet tid r) ∈ traceOf (exec w (processEmail rt m) st) ->
  tid = m_threadId m /\ r = ThreadRecord (m_id m)
  /\ exists email text pre post,
       extracted rt w m = inr email
       /\ classification w email = inr text
       /\ startsWith text "Clarify:" = true
       /\ sendOutcome rt w m email text = inr tt
       /\ traceOf (exec w (processEmail rt m) st)
          = pre ++ Op (replyTo rt m email text) :: sentLine email
            :: Op (ThreadsSet tid r) :: post.
Proof.
  intros Hin. pose proof (in_filter_true isTrack _ _ Hin eq_refl) as Hf.
  rewrite tracks_of_processEmail in Hf.
  destruct (extracted rt w m) as [e|email] eqn:He;
    [no_event Hf|].
  destruct (extracted_fields _ _ _ _ He) as (Hid & Htid & _).
  destruct (startsWith (subjectIn email) "Analysis:") eqn:Hs;
    [|no_event Hf].
  destruct (classification w email) as [e|text] eqn:Hc;
    [no_event Hf|].
  destruct (startsWith text "Clarify:") eqn:Hk; [|no_event Hf].
  destruct (sendOutcome rt w m email text) as [e|[]] eqn:Hsend;
    [no_event Hf|].
  apply list_elem_of_singleton in Hf.
  apply (f_equal trackArgs) in Hf. cbn in Hf. injection Hf as -> ->.
  split; [done|]. split; [by rewrite Hid|].
  exists email, text, (fetched rt w m ++ [invokeOf email]),
    (markReadTail w email).
  repeat split; try done.
  rewrite exec_processEmail, He, Hs, Hc, Hk, Hsend. unfold traceOf, trackOf.
  cbn [snd]. by rewrite <- app_assoc.
Qed.

Lemma replay_lookup tr st tid r :
  replay tr st !! tid = Some r ->
  st !! tid = Some r \/ Op (ThreadsSet tid r) ∈ tr.
Proof.
  revert st. induction tr as [|[R o] tr IH]; intros st Hl; [by left|].
  unfold replay in Hl. cbn [fold_left] in Hl.
  destruct (IH _ Hl) as [Hst|Hin]; [|right; by apply elem_of_cons; right].
  destruct o; cbn [applyWrite] in Hst; try by left.
  - destruct (decide (threadId = tid)) as [->|Hne].
    + rewrite lookup_insert_eq in Hst. injection Hst as ->.
      right. apply elem_of_cons. by left.
    + rewrite lookup_insert_ne in Hst by done. by left.
  - destruct (decide (threadId = tid)) as [->|Hne].
    + by rewrite lookup_delete_eq in Hst.
    + rewrite lookup_delete_ne in Hst by done. by left.
Qed.

Lemma processEmail_in_eligibleTask rt w m st a :
  a ∈ traceOf (exec w (processEmail rt m) st) ->
  a ∈ traceOf (exec w (eligibleTask rt m) st)
  \/ traceOf (exec w (eligibleTask rt m) st) = [Op (ThreadsHas (m_threadId m))].
Proof.
  intros Hin. rewrite exec_eligibleTask.
  destruct (startsWith (subjectOf m) "Analysis:"); [by left|].
  destruct (st !! m_threadId m); [|by right].
  left. unfold traceOf at 1. cbn [snd]. apply elem_of_cons. by right.
Qed.

Lemma track_in_eligibleTask rt w m st tid r :
  Op (ThreadsSet tid r) ∈ traceOf (exec w (eligibleTask rt m) st) ->
  Op (ThreadsSet tid r) ∈ traceOf (exec w (processEmail rt m) st)
  /\ forall a,
       a ∈ traceOf (exec w (processEmail rt m) st) ->
       a ∈ traceOf (exec w (eligibleTask rt m) st).
Proof.
  rewrite exec_eligibleTask.
  destruct (startsWith (subjectOf m) "Analysis:"); [done|].
  destruct (st !! m_threadId m).
  - unfold traceOf at 1 3. cbn [snd]. intros Hin.
    apply elem_of_cons in Hin as [Heq|Hin].
    { by apply (f_equal isTrack) in Heq. }
    split; [done|]. intros a Ha. apply elem_of_cons. by right.
  - unfold traceOf at 1. cbn [snd]. intros Hin.
    apply list_elem_of_singleton in Hin. by apply (f_equal isTrack) in Hin.
Qed.

Lemma cycle_without_batch rt w sch st :
  fetchedMessages w sch = None -> (pollEmails rt w sch st).1 = st.
Proof.
  unfold fetchedMessages, pollEmails.
  destruct (on_list w query 50) as [e|data]; [done|].
  destruct (default [] data) as [|msg rest]; [done|].
  by destruct (fetchAll w sch (msg :: rest)).
Qed.

(** A record in the store after a cycle was there before, or a task of
    the cycle has put it after its clarification reply was delivered. *)
Lemma cycle_tracking rt w sch st tid r :
  (pollEmails rt w sch st).1 !! tid = Some r ->
  st !! tid = Some r
  \/ exists fulls i m,
       fetchedMessages w sch = Some fulls
       /\ fulls !! i = Some m
       /\ m_threadId m = tid
       /\ r = ThreadRecord (m_id m)
       /\ clarificationDelivered rt w (pollEmails rt w sch st).2 i m.
Proof.
  intros Hl. destruct (fetchedMessages w sch) as [fulls|] eqn:Hf.
  2: { left. by rewrite cycle_without_batch in Hl. }
  rewrite (cycle_store _ _ _ _ _ Hf) in Hl.
  apply replay_lookup in Hl as [Hst|Hin]; [by left|]. right.
  apply list_elem_of_fmap in Hin as (ev & Hev & Hin).
  destruct (batch_events _ _ _ _ _ _ Hin) as [[e ->]|(i & m & _ & Hm & Ha)];
    [by apply (f_equal isTrack) in Hev|].
  rewrite <- Hev in Ha.
  destruct (track_in_eligibleTask _ _ _ _ _ _ Ha) as [Hp Hsub].
  destruct (track_in_processEmail _ _ _ _ _ _ Hp)
    as (-> & -> & email & text & pre & post & He & Hc & Hk & Hsend & Htr).
  exists fulls, i, m. repeat split; try done.
  exists email, text. repeat split; try done.
  rewrite (cycle_projection rt w sch st fulls i m Hf Hm).
  apply Hsub. rewrite Htr. apply elem_of_app. right. apply elem_of_cons.
  by left.
Qed.

(** C10.  (1) When [processEmail] inserts a thread in the store, the thread
    and the record are those of its message, the classification starts with
    the marker, and the insertion comes right after the clarification send
    has succeeded.  (2) When the clarification send fails, [processEmail]
    inserts nothing and leaves the store as it was.  (3) After any sequence
    of cycles from the empty store, whatever the worlds and the schedules,
    every thread in the store was put there in one of the cycles by the
    task of a message of that thread, whose id is the [lastProcessedEmailId]
    of the record, and whose clarification reply was sent successfully in
    that cycle. *)
Theorem tracked_only_after_delivered_clarification rt :
  (forall w m st tid r,
     Op (ThreadsSet tid r) ∈ traceOf (exec w (processEmail rt m) st) ->
     tid = m_threadId m /\ r = ThreadRecord (m_id m)
     /\ exists email text pre post,
          extracted rt w m = inr email
          /\ classification w email = inr text
          /\ startsWith text "Clarify:" = true
          /\ sendOutcome rt w m email text = inr tt
          /\ traceOf (exec w (processEmail rt m) st)
             = pre ++ Op (replyTo rt m email text) :: sentLine email
               :: Op (ThreadsSet tid r) :: post)
  /\ (forall w m st email text e,
        extracted rt w m = inr email ->
        classification w email = inr text ->
        startsWith text "Clarify:" = true ->
        sendOutcome rt w m email text = inl e ->
        List.filter isTrack (traceOf (exec w (processEmail rt m) st)) = []
        /\ threadsAfter (exec w (processEmail rt m) st) = st)
  /\ (forall cycles tid r,
        runCycles rt cycles ∅ !! tid = Some r ->
        exists before w sch after fulls i m,
          cycles = before ++ (w, sch) :: after
          /\ fetchedMessages w sch = Some fulls
          /\ fulls !! i = Some m
          /\ m_threadId m = tid
          /\ lastProcessedEmailId r = m_id m
          /\ clarificationDelivered rt w
               (pollEmails rt w sch (runCycles rt before ∅)).2 i m).
Proof.
  split; [apply track_in_processEmail|]. split.
  - intros w m st email text e He Hc Hk Hsend.
    rewrite tracks_of_processEmail, exec_processEmail, He, Hc, Hk, Hsend.
    by destruct (startsWith (subjectIn email) "Analysis:").
  - intros cycles. induction cycles as [|[w sch] cycles IH] using rev_ind;
      intros tid r Hl.
    { unfold runCycles in Hl. cbn [fold_left] in Hl.
      by rewrite lookup_empty in Hl. }
    unfold runCycles in Hl. rewrite fold_left_app in Hl. cbn in Hl.
    fold (runCycles rt cycles ∅) in Hl.
    destruct (cycle_tracking _ _ _ _ _ _ Hl)
      as [Hold|(fulls & i & m & Hf & Hm & Htid & -> & Hd)].
    + destruct (IH _ _ Hold)
        as (before & w' & sch' & after & fulls & i & m & -> & H).
      exists before, w', sch', (after ++ [(w, sch)]), fulls, i, m.
      split; [|done]. by rewrite <- app_assoc.
    + exists cycles, w, sch, [], fulls, i, m. done.
Qed.

Lemma tracked_only_after_delivered_clarification_witness :
  Op (ThreadsSet "t1" (ThreadRecord "m1"))
    ∈ traceOf (exec asksBack (processEmail rt0 refundRequest) ∅)
  /\ exists email text,
       extracted rt0 asksBack refundRequest = inr email
       /\ classification asksBack email = inr text
       /\ startsWith text "Clarify:" = true
       /\ sendOutcome rt0 asksBack refundRequest email text = inr tt.
Proof.
  assert (Op (ThreadsSet "t1" (ThreadRecord "m1"))
            ∈ traceOf (exec asksBack (processEmail rt0 refundRequest) ∅)) as H.
  { vm_compute. apply list_elem_of_In. do 3 right. left. reflexivity. }
  split; [exact H|].
  destruct (proj1 (tracked_only_after_delivered_clarification rt0)
              asksBack refundRequest ∅ _ _ H)
    as (_ & _ & email & text & pre & post & He & Hc & Hk & Hs & _).
  exists email, text. repeat split; assumption.
Defined.

(** * Further properties *)

(** ** [extractEmail]: headers *)

Lemma headersNamed_snoc n hs h :
  headersNamed n (hs ++ [h])
  = headersNamed n hs ++ (if String.eqb (h_name h) n then [h] else []).
Proof. unfold headersNamed. by rewrite List.filter_app. Qed.

Lemma includes_eqb l x : includes l x = true <-> x ∈ l.
Proof.
  unfold includes. rewrite existsb_exists, list_elem_of_In. split.
  - intros (y & Hy & Heq). by apply String.eqb_eq in Heq as ->.
  - intros Hin. exists x. split; [done|apply String.eqb_refl].
Qed.

Lemma extractHeaders_lookup hs n :
  extractHeaders hs !! n
  = if includes keptHeaders n then lastValue n hs else None.
Proof.
  induction hs as [|h hs IH] using rev_ind.
  { unfold extractHeaders, lastValue. cbn [fold_left headersNamed List.filter
      last fmap option_fmap option_map].
    rewrite lookup_empty. by destruct (includes keptHeaders n). }
  rewrite extractHeaders_snoc. unfold lastValue in *.
  rewrite headersNamed_snoc.
  destruct (String.eqb_spec (h_name h) n) as [<-|Hne].
  - destruct (includes keptHeaders (h_name h)) eqn:Hk.
    + by rewrite lookup_insert_eq, last_snoc.
    + by rewrite IH.
  - rewrite app_nil_r.
    destruct (includes keptHeaders (h_name h)); [|done].
    by rewrite lookup_insert_ne.
Qed.

(** X1.  The email [extractEmail] returns keeps, of the headers of the
    message, those named [From], [To], [Subject] and [Date] only, each with
    the value of the last header of that name; a header of any other name
    is dropped. *)
Theorem email_headers_are_the_last_of_the_kept_names rt w m email n :
  extracted rt w m = inr email ->
  e_headers email !! n
  = if includes keptHeaders n
    then lastValue n (pl_headers (m_payload m))
    else None.
Proof.
  intros He. destruct (extracted_inv _ _ _ _ He) as (_ & _ & ->).
  apply extractHeaders_lookup.
Qed.

Lemma email_headers_are_the_last_of_the_kept_names_witness :
  extracted rt0 asksBack refundRequest = inr refundEmail
  /\ e_headers refundEmail !! "Subject"%string
     = Some "Analysis: refund request"%string
  /\ e_headers refundEmail !! "Message-ID"%string = None.
Proof.
  assert (extracted rt0 asksBack refundRequest = inr refundEmail) as H
    by (vm_compute; reflexivity).
  split; [exact H|]. split.
  - rewrite (email_headers_are_the_last_of_the_kept_names rt0 asksBack
               refundRequest refundEmail "Subject" H).
    reflexivity.
  - rewrite (email_headers_are_the_last_of_the_kept_names rt0 asksBack
               refundRequest refundEmail "Message-ID" H).
    reflexivity.
Defined.

(** ** [extractEmail]: body *)

Lemma append_assoc (s1 s2 s3 : string) : (s1 +:+ s2) +:+ s3 = s1 +:+ (s2 +:+ s3).
Proof.
  induction s1 as [|c s1 IH]; [reflexivity|]. exact (f_equal (String c) IH).
Qed.

Lemma append_empty_r (s : string) : s +:+ EmptyString = s.
Proof.
  induction s as [|c s IH]; [reflexivity|]. exact (f_equal (String c) IH).
Qed.

Lemma bodyComplete_or_not parts :
  bodyComplete parts
  \/ exists p, p ∈ parts /\ isText p = true /\ partData (p_body p) = None.
Proof.
  induction parts as [|p parts [IH|(q & Hq & Hrest)]].
  - left. constructor.
  - destruct (isText p) eqn:Ht.
    + destruct (partData (p_body p)) as [d|] eqn:Hd.
      * left. constructor; [|done]. intros _. by rewrite Hd.
      * right. exists p. split; [by apply elem_of_cons; left|done].
    + left. constructor; [|done]. by rewrite Ht.
  - right. exists q. split; [by apply elem_of_cons; right|done].
Qed.

Lemma bodyData_decode rt b :
  (d <- bodyData b ;; decodeBase64 rt d)%prog
  = match partData b with
    | Some d => Ret (fromBase64 rt d)
    | None => Throw TypeError
    end.
Proof. destruct b as [[[d|] aid]|]; reflexivity. Qed.

Lemma extractBodyParts_complete rt parts body :
  bodyComplete parts ->
  extractBodyParts rt parts body
  = Ret (body +:+ concatAll (map (fromBase64 rt) (textData parts))).
Proof.
  intros Hc. revert body.
  induction Hc as [|p parts Hp _ IH]; intros body; cbn [extractBodyParts].
  { cbn. by rewrite append_empty_r. }
  unfold textData in *. cbn [omap list_omap].
  destruct (isText p) eqn:Ht; [|apply IH].
  destruct (Hp eq_refl) as [d Hd]. rewrite Hd.
  destruct (p_body p) as [[[d'|] aid]|]; try done.
  cbn in Hd. injection Hd as ->. cbn [bodyData decodeBase64 bind b_data].
  rewrite IH. cbn [map concatAll fold_right]. by rewrite append_assoc.
Qed.

Lemma extractBodyParts_missing rt parts body p :
  p ∈ parts -> isText p = true -> partData (p_body p) = None ->
  extractBodyParts rt parts body = Throw TypeError.
Proof.
  intros Hin Ht Hd. revert body.
  induction parts as [|q parts IH]; intros body; [no_event Hin|].
  cbn [extractBodyParts].
  destruct (isText q) eqn:Hq.
  - destruct (p_body q) as [[[d|] aid]|] eqn:Hb; cbn [bodyData decodeBase64 bind b_data];
      try done.
    apply elem_of_cons in Hin as [->|Hin]; [|by apply IH].
    rewrite Hb in Hd. done.
  - apply elem_of_cons in Hin as [->|Hin]; [congruence|by apply IH].
Qed.

Lemma extractBody_missing rt pl :
  missingText pl -> extractBody rt pl = Throw TypeError.
Proof.
  unfold missingText, extractBody. destruct (pl_parts pl) as [parts|].
  - intros (p & Hin & Ht & Hd). by eapply extractBodyParts_missing.
  - intros Hd. by rewrite bodyData_decode, Hd.
Qed.

(** X2.  For a multipart message, [extractEmail] succeeds only if every
    text part (plain or HTML) carries data, and the body of the email is
    then the concatenation, in part order, of the decoded data of the text
    parts; the other parts add nothing to it. *)
Theorem multipart_body_is_the_text_parts_in_order rt w m parts email :
  pl_parts (m_payload m) = Some parts ->
  extracted rt w m = inr email ->
  bodyComplete parts
  /\ e_body email = concatAll (map (fromBase64 rt) (textData parts)).
Proof.
  intros Hparts. unfold extracted, extractEmail, extractBody.
  rewrite Hparts.
  destruct (bodyComplete_or_not parts) as [Hc|(p & Hin & Ht & Hd)].
  - rewrite (extractBodyParts_complete rt parts EmptyString Hc).
    cbn [bind]. rewrite exec_bind.
    destruct (exec w (fetchAttachments (m_id m) parts []) ∅)
      as [[[e|atts] st1] tr1]; [done|].
    cbn. by intros [= <-].
  - by rewrite (extractBodyParts_missing rt parts EmptyString p Hin Ht Hd).
Qed.

Lemma multipart_body_is_the_text_parts_in_order_witness :
  (pl_parts (m_payload invoiceRequest) = Some invoiceParts
   /\ extracted rt0 understands invoiceRequest
      = inr (emailOf invoiceRequest "U2VlIGF0dGFjaGVk"
               [Attachment "invoice.pdf" "application/pdf" EmptyString]))
  /\ e_body (emailOf invoiceRequest "U2VlIGF0dGFjaGVk"
               [Attachment "invoice.pdf" "application/pdf" EmptyString])
     = concatAll (map (fromBase64 rt0) (textData invoiceParts)).
Proof.
  assert (extracted rt0 understands invoiceRequest
          = inr (emailOf invoiceRequest "U2VlIGF0dGFjaGVk"
                   [Attachment "invoice.pdf" "application/pdf" EmptyString]))
    as H by (vm_compute; reflexivity).
  split; [split; [reflexivity|exact H]|].
  exact (proj2 (multipart_body_is_the_text_parts_in_order rt0 understands
                  invoiceRequest invoiceParts _ eq_refl H)).
Defined.

Lemma extractEmail_missing rt w m :
  missingText (m_payload m) ->
  extracted rt w m = inl TypeError /\ fetched rt w m = [].
Proof.
  intros Hmiss. unfold extracted, fetched, extractEmail.
  by rewrite (extractBody_missing rt _ Hmiss).
Qed.

(** X3.  When a text part of a multipart message has no data, or the body
    of a message without parts has none, [extractEmail] fails with a
    TypeError before it fetches any attachment. *)
Theorem missing_text_data_fails_before_any_fetch rt w m :
  missingText (m_payload m) ->
  extracted rt w m = inl TypeError /\ fetched rt w m = [].
Proof. apply extractEmail_missing. Qed.

(** X4.  For a message without parts whose body carries data, [extractEmail]
    performs no operation and returns the email whose body is the decoded
    data, with no attachment. *)
Theorem single_part_email_is_the_decoded_body rt w m d :
  pl_parts (m_payload m) = None ->
  partData (pl_body (m_payload m)) = Some d ->
  extracted rt w m
  = inr (MkEmail (m_id m) (m_threadId m)
           (extractHeaders (pl_headers (m_payload m))) (fromBase64 rt d) [])
  /\ fetched rt w m = [].
Proof.
  intros Hparts Hd. unfold extracted, fetched, extractEmail, extractBody.
  by rewrite Hparts, bodyData_decode, Hd.
Qed.

Lemma missing_text_data_fails_before_any_fetch_witness :
  missingText (m_payload emptyNote)
  /\ extracted rt0 understands emptyNote = inl TypeError
  /\ fetched rt0 understands emptyNote = [].
Proof.
  assert (missingText (m_payload emptyNote)) as H by reflexivity.
  split; [exact H|].
  exact (missing_text_data_fails_before_any_fetch rt0 understands emptyNote H).
Defined.

Lemma single_part_email_is_the_decoded_body_witness :
  (pl_parts (m_payload refundRequest) = None
   /\ partData (pl_body (m_payload refundRequest))
      = Some "SSB3YW50IGEgcmVmdW5k"%string)
  /\ extracted rt0 understands refundRequest = inr refundEmail
  /\ fetched rt0 understands refundRequest = [].
Proof.
  split; [split; reflexivity|].
  exact (single_part_email_is_the_decoded_body rt0 understands refundRequest
           "SSB3YW50IGEgcmVmdW5k" eq_refl eq_refl).
Defined.

(** ** [extractEmail]: attachments *)

Lemma exec_fetchAttachments w mid parts acc st :
  exec w (fetchAttachments mid parts acc) st
  = (collectAttachments w mid (attachmentsOf parts) acc, st,
     map (attachmentGet mid) (untilFailure w mid (attachmentsOf parts))).
Proof.
  revert acc. induction parts as [|p parts IH]; intros acc; [done|].
  cbn [fetchAttachments]. unfold attachmentsOf in *. cbn [omap list_omap].
  destruct (attachmentRef p) as [[f a]|]; cbn [fmap option_fmap option_map];
    [|apply IH].
  rewrite exec_bind. exec_step.
  cbn [collectAttachments untilFailure map]. unfold fetchedAttachment.
  cbn [fst snd].
  destruct (on_attachment w mid a) as [e|d]; exec_step; [done|].
  by rewrite IH.
Qed.

Lemma collectAttachments_inr w mid l acc atts :
  collectAttachments w mid l acc = inr atts ->
  map inr atts = map inr acc ++ map (fetchedAttachment w mid) l.
Proof.
  revert acc. induction l as [|x l IH]; intros acc; cbn [collectAttachments].
  - intros [= <-]. by rewrite app_nil_r.
  - destruct (fetchedAttachment w mid x) as [e|a] eqn:Hx; [done|].
    intros H. rewrite (IH _ H), map_app. cbn [map]. rewrite Hx.
    by rewrite <- app_assoc.
Qed.

Lemma exec_extractEmail_complete rt w m parts :
  pl_parts (m_payload m) = Some parts ->
  bodyComplete parts ->
  exec w (extractEmail rt m) ∅
  = (match collectAttachments w (m_id m) (attachmentsOf parts) [] with
     | inr atts =>
         inr (MkEmail (m_id m) (m_threadId m)
                (extractHeaders (pl_headers (m_payload m)))
                (concatAll (map (fromBase64 rt) (textData parts))) atts)
     | inl e => inl e
     end, ∅,
     map (attachmentGet (m_id m))
       (untilFailure w (m_id m) (attachmentsOf parts))).
Proof.
  intros Hparts Hc. unfold extractEmail, extractBody. rewrite Hparts.
  rewrite (extractBodyParts_complete rt parts EmptyString Hc). cbn [bind].
  rewrite exec_bind, exec_fetchAttachments.
  destruct (collectAttachments w (m_id m) (attachmentsOf parts) [])
    as [e|atts]; [done|].
  cbn. by rewrite app_nil_r.
Qed.

(** X5.  For a multipart message, the attachments of the email
    [extractEmail] returns are those of the parts that carry a file name and
    an attachment id, in part order, each with the file name and the media
    type of its part and the data its fetch has returned; every one of
    these fetches has succeeded. *)
Theorem attachments_follow_the_parts_in_order rt w m parts email :
  pl_parts (m_payload m) = Some parts ->
  extracted rt w m = inr email ->
  map inr (e_attachments email)
  = map (fetchedAttachment w (m_id m)) (attachmentsOf parts).
Proof.
  intros Hparts He.
  destruct (bodyComplete_or_not parts) as [Hc|(p & Hin & Ht & Hd)].
  - unfold extracted in He.
    rewrite (exec_extractEmail_complete rt w m parts Hparts Hc) in He.
    cbn [fst] in He.
    destruct (collectAttachments w (m_id m) (attachmentsOf parts) [])
      as [e|atts] eqn:Hcol; [done|].
    injection He as <-. cbn [e_attachments].
    by rewrite (collectAttachments_inr _ _ _ _ _ Hcol).
  - assert (missingText (m_payload m)) as Hmiss.
    { unfold missingText. rewrite Hparts. by exists p. }
    by rewrite (proj1 (extractEmail_missing rt w m Hmiss)) in He.
Qed.

Lemma attachments_follow_the_parts_in_order_witness :
  (pl_parts (m_payload invoiceRequest) = Some invoiceParts
   /\ extracted rt0 understands invoiceRequest
      = inr (emailOf invoiceRequest "U2VlIGF0dGFjaGVk"
               [Attachment "invoice.pdf" "application/pdf" EmptyString]))
  /\ map inr [Attachment "invoice.pdf" "application/pdf" EmptyString]
     = map (fetchedAttachment understands "m4") (attachmentsOf invoiceParts).
Proof.
  assert (extracted rt0 understands invoiceRequest
          = inr (emailOf invoiceRequest "U2VlIGF0dGFjaGVk"
                   [Attachment "invoice.pdf" "application/pdf" EmptyString]))
    as H by (vm_compute; reflexivity).
  split; [split; [reflexivity|exact H]|].
  exact (attachments_follow_the_parts_in_order rt0 understands invoiceRequest
           invoiceParts _ eq_refl H).
Defined.

(** X6.  For a multipart message whose text parts all carry data,
    [extractEmail] fetches the attachments one by one in part order and
    stops at the first fetch that fails: its operations are the fetches of
    the attachments up to that one, and nothing else. *)
Theorem attachments_are_fetched_in_order_up_to_the_first_failure
    rt w m parts :
  pl_parts (m_payload m) = Some parts ->
  bodyComplete parts ->
  fetched rt w m
  = map (attachmentGet (m_id m))
      (untilFailure w (m_id m) (attachmentsOf parts)).
Proof.
  intros Hparts Hc. unfold fetched.
  by rewrite (exec_extractEmail_complete rt w m parts Hparts Hc).
Qed.

Lemma attachments_are_fetched_in_order_up_to_the_first_failure_witness :
  (pl_parts (m_payload twoInvoices) = Some twoInvoiceParts
   /\ bodyComplete twoInvoiceParts)
  /\ fetched rt0 noAttachment twoInvoices = [Op (AttachmentsGet "m7" "att-1")].
Proof.
  assert (bodyComplete twoInvoiceParts) as H.
  { repeat (constructor;
            [cbn; intros Ht; first [discriminate Ht | by eexists]|]).
    constructor. }
  split; [split; [reflexivity|exact H]|].
  exact (attachments_are_fetched_in_order_up_to_the_first_failure rt0
           noAttachment twoInvoices twoInvoiceParts eq_refl H).
Defined.

(** ** [sendEmailReply]: the URL-safe encoding *)

Lemma replace_all_removes c d s : c <> d -> c ∉ chars (replace_all c d s).
Proof.
  intros Hne. unfold chars.
  induction s as [|x s IH]; cbn; [apply not_elem_of_nil|].
  apply not_elem_of_cons. split; [|done].
  destruct (Ascii.eqb_spec x c); congruence.
Qed.

Lemma replace_all_keeps_out x c d s :
  x <> d -> x ∉ chars s -> x ∉ chars (replace_all c d s).
Proof.
  intros Hne. unfold chars.
  induction s as [|y s IH]; cbn; [done|].
  rewrite !not_elem_of_cons. intros [Hy Hs]. split; [|by apply IH].
  by destruct (Ascii.eqb y c).
Qed.

Lemma drop_leading_subset c l x : x ∈ drop_leading c l -> x ∈ l.
Proof.
  induction l as [|y l IH]; cbn; [done|].
  destruct (Ascii.eqb y c); [|done].
  intros Hin. apply elem_of_cons. right. by apply IH.
Qed.

Lemma drop_leading_head c l : head (drop_leading c l) <> Some c.
Proof.
  induction l as [|y l IH]; cbn; [done|].
  destruct (Ascii.eqb_spec y c); [done|]. cbn. congruence.
Qed.

Lemma last_rev {A} (l : list A) : last (rev l) = head l.
Proof. destruct l as [|x l]; [done|]. cbn. apply last_snoc. Qed.

Lemma chars_strip_trailing c s :
  chars (strip_trailing c s) = rev (drop_leading c (rev (chars s))).
Proof. unfold chars, strip_trailing. apply list_ascii_of_string_of_list_ascii. Qed.

Lemma strip_trailing_subset c s x :
  x ∈ chars (strip_trailing c s) -> x ∈ chars s.
Proof.
  rewrite chars_strip_trailing, !list_elem_of_In, <- in_rev, <- !list_elem_of_In.
  intros Hin. apply drop_leading_subset in Hin.
  by rewrite list_elem_of_In, <- in_rev, <- list_elem_of_In in Hin.
Qed.

Lemma base64url_urlSafe rt s : urlSafe (base64url rt s).
Proof.
  unfold urlSafe, base64url. repeat split.
  - intros Hin. apply strip_trailing_subset in Hin. revert Hin.
    apply replace_all_keeps_out; [done|]. by apply replace_all_removes.
  - intros Hin. apply strip_trailing_subset in Hin. revert Hin.
    by apply replace_all_removes.
  - rewrite chars_strip_trailing, last_rev. apply drop_leading_head.
Qed.

(** X7.  [sendEmailReply] performs one operation, a send in the given
    thread, and the raw message it sends is in the URL-safe alphabet
    whatever the base64 encoder returns: it holds no [+] and no [/], and
    does not end with [=]. *)
Theorem reply_is_sent_url_safe rt w st to subject body threadId messageId :
  exists raw,
    traceOf (exec w (sendEmailReply rt to subject body threadId messageId) st)
    = [Op (MessagesSend raw threadId)]
    /\ urlSafe raw.
Proof.
  exists (base64url rt (rawMessage to subject body messageId)).
  split; [|apply base64url_urlSafe].
  unfold sendEmailReply, traceOf. exec_step.
  by destruct (on_send w _ threadId).
Qed.

(** ** [processEmail]: what it does, and when *)

Ltac processEmail_cases rt w m email text :=
  rewrite exec_processEmail;
  unfold traceOf, outcome, threadsAfter, markReadTail;
  destruct (extracted rt w m) as [?e|email] eqn:?He; cbn [fst snd];
  [|destruct (startsWith (subjectIn email) "Analysis:") eqn:?Hs; cbn [fst snd];
    [destruct (classification w email) as [?e|text] eqn:?Hc; cbn [fst snd];
     [|destruct (startsWith text "Clarify:") eqn:?Hk; cbn [fst snd];
       [destruct (sendOutcome rt w m email text) as [?e|[]] eqn:?Hsend;
        cbn [fst snd];
        [|destruct (markReadOutcome w email) as [?e|[]] eqn:?Hmark]
       |destruct (markReadOutcome w email) as [?e|[]] eqn:?Hmark]]|]].

Lemma fetched_filter_none (f : anyop -> bool) rt w m :
  (forall mid aid, f (Op (AttachmentsGet mid aid)) = false) ->
  List.filter f (fetched rt w m) = [].
Proof.
  intros Hf. eapply filter_none; [|apply fetched_attachments].
  intros a [aid ->]. apply Hf.
Qed.

(** An operation that handles the email is performed only past the
    subject guard. *)
Lemma handled_in_processEmail rt w m st a :
  a ∈ traceOf (exec w (processEmail rt m) st) ->
  handles a = true ->
  exists email,
    extracted rt w m = inr email
    /\ startsWith (subjectIn email) "Analysis:" = true.
Proof.
  intros Hin Ha. apply (in_filter_true handles) in Hin; [|done]. revert Hin.
  processEmail_cases rt w m email text;
    rewrite ?List.filter_app, fetched_filter_none by done;
    try (intros Hin; no_event Hin); intros _; by exists email.
Qed.

(** The mark-read call of a run, if any, is for the email, after the
    classification and, in the clarification branch, after the send. *)
Lemma modify_in_processEmail rt w m st a :
  a ∈ traceOf (exec w (processEmail rt m) st) ->
  isModify a = true ->
  exists email text,
    extracted rt w m = inr email
    /\ a = modifyOf email
    /\ classification w email = inr text
    /\ (startsWith text "Clarify:" = true ->
        sendOutcome rt w m email text = inr tt).
Proof.
  intros Hin Ha. apply (in_filter_true isModify) in Hin; [|done]. revert Hin.
  processEmail_cases rt w m email text;
    rewrite ?List.filter_app, fetched_filter_none by done;
    try (intros Hin; no_event Hin); cbn; intros Hin;
    apply list_elem_of_singleton in Hin; exists email, text;
    repeat split; try done; congruence.
Qed.

Lemma processEmail_at_most_once rt w m st :
  (length (List.filter isInvoke (traceOf (exec w (processEmail rt m) st)))
   <= 1)%nat
  /\ (length (List.filter isSend (traceOf (exec w (processEmail rt m) st)))
      <= 1)%nat
  /\ (length (List.filter isModify (traceOf (exec w (processEmail rt m) st)))
      <= 1)%nat.
Proof.
  processEmail_cases rt w m email text;
    rewrite ?List.filter_app, !fetched_filter_none by done; cbn; lia.
Qed.

(** X10.  [processEmail] rejects exactly when [extractEmail] does, with the
    same error: any failure past the extraction is caught.  When it
    rejects it has only fetched attachments and the store is as before. *)
Theorem processEmail_rejects_only_with_extractEmail rt w m st e :
  (outcome (exec w (processEmail rt m) st) = inl e
   <-> extracted rt w m = inl e)
  /\ (extracted rt w m = inl e ->
      threadsAfter (exec w (processEmail rt m) st) = st
      /\ traceOf (exec w (processEmail rt m) st) = fetched rt w m).
Proof.
  processEmail_cases rt w m email text; split; try done;
    split; intros; by simplify_eq.
Qed.

(** ** The cycle: what is done for a message *)

(** X8.  In any cycle, under any schedule, the model is called for a
    message, a reply is sent for it, its thread is set or deleted in the
    store, or it is marked read, only if its subject (the last [Subject]
    header) starts with ["Analysis:"]: a message admitted because its thread
    is tracked is handled no further than the subject guard. *)
Theorem only_analysis_subjects_are_handled rt w sch st fulls i m a :
  fetchedMessages w sch = Some fulls ->
  fulls !! i = Some m ->
  a ∈ eventsOf i (pollEmails rt w sch st).2 ->
  handles a = true ->
  startsWith (originalSubject m) "Analysis:" = true.
Proof.
  intros Hf Hm Hin Ha.
  rewrite (cycle_projection rt w sch st fulls i m Hf Hm) in Hin.
  apply eligibleTask_trace in Hin as [->|Hin]; [done|].
  destruct (handled_in_processEmail _ _ _ _ _ Hin Ha) as (email & He & Hs).
  destruct (extracted_fields _ _ _ _ He) as (_ & _ & _ & <-). done.
Qed.

Lemma only_analysis_subjects_are_handled_witness :
  (fetchedMessages asksBack inOrder = Some [refundRequest]
   /\ [refundRequest] !! 0%nat = Some refundRequest
   /\ invokeOf refundEmail ∈ eventsOf 0 (pollEmails rt0 asksBack inOrder ∅).2
   /\ handles (invokeOf refundEmail) = true)
  /\ startsWith (originalSubject refundRequest) "Analysis:" = true.
Proof.
  assert (invokeOf refundEmail
            ∈ eventsOf 0 (pollEmails rt0 asksBack inOrder ∅).2) as H.
  { vm_compute. apply list_elem_of_In. left. reflexivity. }
  split; [repeat split; try reflexivity; exact H|].
  exact (only_analysis_subjects_are_handled rt0 asksBack inOrder ∅
           [refundRequest] 0 refundRequest _ eq_refl eq_refl H eq_refl).
Defined.

(** X9.  In any cycle, under any schedule, a mark-read call issued for a
    message removes the label [UNREAD] from that very message, and is
    issued only after the message has been extracted and classified and,
    when the classification asks for a clarification, after the reply has
    been sent successfully. *)
Theorem mark_read_only_after_handling rt w sch st fulls i m id labels :
  fetchedMessages w sch = Some fulls ->
  fulls !! i = Some m ->
  Op (MessagesModify id labels) ∈ eventsOf i (pollEmails rt w sch st).2 ->
  id = m_id m /\ labels = ["UNREAD"%string]
  /\ exists email text,
       extracted rt w m = inr email
       /\ classification w email = inr text
       /\ (startsWith text "Clarify:" = true ->
           sendOutcome rt w m email text = inr tt).
Proof.
  intros Hf Hm Hin.
  rewrite (cycle_projection rt w sch st fulls i m Hf Hm) in Hin.
  apply eligibleTask_trace in Hin as [Heq|Hin].
  { by apply (f_equal isModify) in Heq. }
  destruct (modify_in_processEmail _ _ _ _ _ Hin eq_refl)
    as (email & text & He & Ha & Hc & Hsend).
  destruct (extracted_fields _ _ _ _ He) as (Hid & _).
  apply (f_equal modifyArgs) in Ha. cbn in Ha. injection Ha as -> ->.
  split; [done|]. split; [done|]. by exists email, text.
Qed.

Lemma mark_read_only_after_handling_witness :
  (fetchedMessages asksBack inOrder = Some [refundRequest]
   /\ [refundRequest] !! 0%nat = Some refundRequest
   /\ Op (MessagesModify "m1" ["UNREAD"%string])
        ∈ eventsOf 0 (pollEmails rt0 asksBack inOrder ∅).2)
  /\ exists email text,
       extracted rt0 asksBack refundRequest = inr email
       /\ classification asksBack email = inr text
       /\ (startsWith text "Clarify:" = true ->
           sendOutcome rt0 asksBack refundRequest email text = inr tt).
Proof.
  assert (Op (MessagesModify "m1" ["UNREAD"%string])
            ∈ eventsOf 0 (pollEmails rt0 asksBack inOrder ∅).2) as H.
  { vm_compute. apply list_elem_of_In. do 4 right. left. reflexivity. }
  split; [repeat split; try reflexivity; exact H|].
  exact (proj2 (proj2 (mark_read_only_after_handling rt0 asksBack inOrder ∅
                         [refundRequest] 0 refundRequest _ _
                         eq_refl eq_refl H))).
Defined.

(** X14.  In any cycle, under any schedule, the model is called at most
    once, at most one reply is sent and at most one mark-read call is
    issued for each message of the batch. *)
Theorem each_message_is_handled_at_most_once rt w sch st fulls i m :
  fetchedMessages w sch = Some fulls ->
  fulls !! i = Some m ->
  (length (List.filter isInvoke (eventsOf i (pollEmails rt w sch st).2))
   <= 1)%nat
  /\ (length (List.filter isSend (eventsOf i (pollEmails rt w sch st).2))
      <= 1)%nat
  /\ (length (List.filter isModify (eventsOf i (pollEmails rt w sch st).2))
      <= 1)%nat.
Proof.
  intros Hf Hm.
  rewrite (cycle_projection rt w sch st fulls i m Hf Hm), exec_eligibleTask.
  pose proof (processEmail_at_most_once rt w m st) as Hp.
  destruct (startsWith (subjectOf m) "Analysis:"); [done|].
  destruct (st !! m_threadId m); unfold traceOf at 1 2 3; cbn [snd]; [done|].
  cbn. lia.
Qed.

Lemma each_message_is_handled_at_most_once_witness :
  (fetchedMessages asksBack inOrder = Some [refundRequest]
   /\ [refundRequest] !! 0%nat = Some refundRequest)
  /\ (length (List.filter isSend
                (eventsOf 0 (pollEmails rt0 asksBack inOrder ∅).2)) <= 1)%nat.
Proof.
  split; [split; reflexivity|].
  exact (proj1 (proj2 (each_message_is_handled_at_most_once rt0 asksBack
                         inOrder ∅ [refundRequest] 0 refundRequest
                         eq_refl eq_refl))).
Defined.

(** ** The cycle: schedules *)

Lemma fetchedMessages_any_schedule w sch1 sch2 :
  fetchedMessages w sch1 = fetchedMessages w sch2.
Proof.
  unfold fetchedMessages, fetchAll, promiseAll.
  destruct (on_list w query 50) as [e|data]; [done|].
  destruct (default [] data) as [|msg rest]; [done|].
  by destruct (firstRejection _).
Qed.

Lemma eventsOf_all_poll i l :
  (forall ev, ev ∈ l -> who ev = Poll) -> eventsOf i l = [].
Proof.
  induction l as [|[a o] l IH]; intros Hl; [done|].
  assert (a = Poll) as -> by (apply (Hl (Ev a o)), elem_of_cons; by left).
  unfold eventsOf in *. cbn. apply IH. intros ev Hin. apply Hl.
  apply elem_of_cons. by right.
Qed.

Lemma cycle_without_batch_events rt w sch st i :
  fetchedMessages w sch = None -> eventsOf i (pollEmails rt w sch st).2 = [].
Proof.
  intros Hf. apply eventsOf_all_poll. intros ev Hin.
  destruct (cycle_events _ _ _ _ _ Hin) as [[Hp _]|(fulls & _ & _ & Hf' & _)];
    [done|congruence].
Qed.

Lemma cycle_strangers rt w sch st fulls i :
  fetchedMessages w sch = Some fulls ->
  fulls !! i = None ->
  eventsOf i (pollEmails rt w sch st).2 = [].
Proof.
  intros Hf Hi.
  destruct (pollEmails_batch rt w sch st fulls Hf) as (refs & _ & _ & ->).
  cbn [snd]. rewrite fetches_tagged.
  change (Ev Poll (Op listing) :: ?l) with (map (Ev Poll) [Op listing] ++ l).
  rewrite !eventsOf_app, !eventsOf_poll. cbn [app].
  destruct (runBatch_inv rt w sch fulls st) as (_ & _ & Hout & _).
  apply Hout. by apply lookup_ge_None.
Qed.

(** X11.  The operations a cycle performs for each message do not depend
    on the schedule: whatever the order in which the fetches settle and the
    tasks of the batch resume, the task of a given index performs the same
    operations in the same order. *)
Theorem operations_per_message_are_schedule_independent
    rt w sch1 sch2 st i :
  eventsOf i (pollEmails rt w sch1 st).2
  = eventsOf i (pollEmails rt w sch2 st).2.
Proof.
  pose proof (fetchedMessages_any_schedule w sch1 sch2) as Hsch.
  destruct (fetchedMessages w sch1) as [fulls|] eqn:Hf.
  - destruct (fulls !! i) as [m|] eqn:Hm.
    + rewrite (cycle_projection rt w sch1 st fulls i m Hf Hm).
      by rewrite (cycle_projection rt w sch2 st fulls i m (eq_sym Hsch) Hm).
    + rewrite (cycle_strangers rt w sch1 st fulls i Hf Hm).
      by rewrite (cycle_strangers rt w sch2 st fulls i (eq_sym Hsch) Hm).
  - rewrite (cycle_without_batch_events rt w sch1 st i Hf).
    by rewrite (cycle_without_batch_events rt w sch2 st i (eq_sym Hsch)).
Qed.

(** ** The cycle: the store *)

Lemma applyWrite_other a st tid :
  writtenThread a <> Some tid -> applyWrite a st !! tid = st !! tid.
Proof.
  destruct a as [R o]. destruct o; cbn; try done; intros Hne.
  - apply lookup_insert_ne. congruence.
  - apply lookup_delete_ne. congruence.
Qed.

Lemma applyWrite_agree a st st' tid :
  st !! tid = st' !! tid -> applyWrite a st !! tid = applyWrite a st' !! tid.
Proof.
  intros Hst. destruct a as [R o]. destruct o; cbn; try done.
  - destruct (decide (threadId = tid)) as [->|Hne].
    + by rewrite !lookup_insert_eq.
    + by rewrite !lookup_insert_ne.
  - destruct (decide (threadId = tid)) as [->|Hne].
    + by rewrite !lookup_delete_eq.
    + by rewrite !lookup_delete_ne.
Qed.

(** On one thread, the store after the events of a cycle is the store after
    the events of one task, when no other actor writes that thread. *)
Lemma replay_projection (l : list event) i tid st st' :
  (forall ev, ev ∈ l ->
     who ev = Task i \/ writtenThread (what ev) <> Some tid) ->
  st !! tid = st' !! tid ->
  replay (map what l) st !! tid = replay (eventsOf i l) st' !! tid.
Proof.
  revert st st'. induction l as [|[a o] l IH]; intros st st' Hl Hst; [done|].
  assert (forall ev, ev ∈ l ->
            who ev = Task i \/ writtenThread (what ev) <> Some tid) as Hl'.
  { intros ev Hin. apply Hl, elem_of_cons. by right. }
  unfold eventsOf, replay in *. cbn [map omap list_omap fold_left who what].
  destruct a as [|j].
  - apply IH; [done|].
    destruct (Hl (Ev Poll o)) as [?|Hw]; [by apply elem_of_cons; left|done|].
    by rewrite applyWrite_other.
  - destruct (decide (j = i)) as [->|Hne]; cbn [fold_left].
    + apply IH; [done|]. by apply applyWrite_agree.
    + apply IH; [done|].
      destruct (Hl (Ev (Task j) o)) as [Hw|Hw];
        [by apply elem_of_cons; left|cbn in Hw; congruence|].
      by rewrite applyWrite_other.
Qed.

(** [processEmail] writes the thread of its message only. *)
Lemma write_in_processEmail rt w m st a tid :
  a ∈ traceOf (exec w (processEmail rt m) st) ->
  writtenThread a = Some tid ->
  tid = m_threadId m.
Proof.
  intros Hin Ha. apply (in_filter_true isWrite) in Hin.
  2: { destruct a as [R o]. by destruct o. }
  revert Hin.
  processEmail_cases rt w m email text;
    rewrite ?List.filter_app, fetched_filter_none by done;
    try (intros Hin; no_event Hin); cbn; intros Hin;
    apply list_elem_of_singleton in Hin; subst a; cbn in Ha;
    destruct (extracted_fields _ _ _ _ He) as (_ & <- & _); congruence.
Qed.

Lemma write_in_eligibleTask rt w m st a tid :
  a ∈ traceOf (exec w (eligibleTask rt m) st) ->
  writtenThread a = Some tid ->
  tid = m_threadId m.
Proof.
  intros Hin Ha. apply eligibleTask_trace in Hin as [->|Hin]; [done|].
  by eapply write_in_processEmail.
Qed.

(** X12.  A cycle leaves alone the threads of the store that are not the
    thread of a message of its batch: whatever the schedule, their records
    are after the cycle what they were before. *)
Theorem other_threads_are_untouched rt w sch st tid :
  (forall fulls j m,
     fetchedMessages w sch = Some fulls ->
     fulls !! j = Some m ->
     m_threadId m <> tid) ->
  (pollEmails rt w sch st).1 !! tid = st !! tid.
Proof.
  intros Hother. destruct (fetchedMessages w sch) as [fulls|] eqn:Hf.
  2: { by rewrite cycle_without_batch. }
  rewrite (cycle_store _ _ _ _ _ Hf).
  rewrite (replay_projection _ (length fulls) tid st st); [|  |done].
  - destruct (runBatch_inv rt w sch fulls st) as (_ & _ & Hout & _).
    by rewrite Hout.
  - intros ev Hin. right. intros Hw.
    destruct (batch_events _ _ _ _ _ _ Hin) as [[e ->]|(j & m & _ & Hm & Ha)];
      [done|].
    apply (Hother fulls j m eq_refl Hm). symmetry.
    by eapply write_in_eligibleTask.
Qed.

(** X13.  When no other message of the batch is in the thread of a
    message, the record of that thread after the cycle is, whatever the
    schedule, the one the callback of the message leaves when it runs alone
    from the store the cycle started with. *)
Theorem thread_of_a_single_message_ends_as_if_run_alone
    rt w sch st fulls i m :
  fetchedMessages w sch = Some fulls ->
  fulls !! i = Some m ->
  (forall j m', fulls !! j = Some m' -> j <> i ->
                m_threadId m' <> m_threadId m) ->
  (pollEmails rt w sch st).1 !! m_threadId m
  = threadsAfter (exec w (eligibleTask rt m) st) !! m_threadId m.
Proof.
  intros Hf Hm Hothers.
  rewrite (cycle_store _ _ _ _ _ Hf), exec_replay.
  rewrite <- (batch_projection rt w sch fulls st i m Hm).
  apply replay_projection; [|done].
  intros ev Hin.
  destruct (batch_events _ _ _ _ _ _ Hin) as [[e ->]|(j & m' & Hw & Hm' & Ha)];
    [by right|].
  destruct (decide (j = i)) as [->|Hne]; [by left|]. right. intros Hwr.
  apply (Hothers j m' Hm' Hne). symmetry. by eapply write_in_eligibleTask.
Qed.

Lemma other_threads_are_untouched_witness :
  (forall fulls j m,
     fetchedMessages asksBack inOrder = Some fulls ->
     fulls !! j = Some m ->
     m_threadId m <> "t9"%string)
  /\ (pollEmails rt0 asksBack inOrder tracked_t9).1 !! "t9"%string
     = tracked_t9 !! "t9"%string.
Proof.
  assert (forall fulls j m,
            fetchedMessages asksBack inOrder = Some fulls ->
            fulls !! j = Some m ->
            m_threadId m <> "t9"%string) as H.
  { intros fulls j m Hf Hm. injection Hf as <-.
    destruct j as [|j]; [|done]. by injection Hm as <-. }
  split; [exact H|].
  exact (other_threads_are_untouched rt0 asksBack inOrder tracked_t9 "t9" H).
Defined.

Lemma thread_of_a_single_message_ends_as_if_run_alone_witness :
  (fetchedMessages twoRequests alternating = Some [refundRequest; orderStatus]
   /\ [refundRequest; orderStatus] !! 0%nat = Some refundRequest
   /\ (forall j m',
         [refundRequest; orderStatus] !! j = Some m' -> j <> 0%nat ->
         m_threadId m' <> m_threadId refundRequest))
  /\ (pollEmails rt0 twoRequests alternating ∅).1 !! "t1"%string
     = threadsAfter (exec twoRequests (eligibleTask rt0 refundRequest) ∅)
       !! "t1"%string.
Proof.
  assert (forall j m',
            [refundRequest; orderStatus] !! j = Some m' -> j <> 0%nat ->
            m_threadId m' <> m_threadId refundRequest) as H.
  { intros [|[|j]] m' Hm Hj; try done. by injection Hm as <-. }
  split; [repeat split; try reflexivity; exact H|].
  exact (thread_of_a_single_message_ends_as_if_run_alone rt0 twoRequests
           alternating ∅ [refundRequest; orderStatus] 0 refundRequest
           eq_refl eq_refl H).
Defined.

(** ** The cycle: the fetches *)

Lemma filter_all {A} (f : A -> bool) l :
  Forall (fun a => f a = true) l -> List.filter f l = l.
Proof.
  induction 1 as [|a l Ha _ IH]; [done|]. cbn. by rewrite Ha, IH.
Qed.

Lemma batch_no_fetch rt w sch fulls st :
  Forall (fun ev => isGet (what ev) = false)
    (log (runBatch rt w sch fulls st)).
Proof.
  apply Forall_forall. intros ev Hin.
  destruct (batch_events _ _ _ _ _ _ Hin) as [[e ->]|(i & m & _ & _ & Ha)];
    [done|].
  pose proof (exec_ops_all (fun a => isGet a = false) w
                (eligibleTask rt m) st) as Hall.
  rewrite Forall_forall in Hall. apply Hall; [|exact Ha].
  apply eligibleTask_ops; try done. by intros [R []].
Qed.

(** X15.  In a cycle whose listing succeeds, the full content of every
    listed message is requested exactly once, by [pollEmails] itself, in the
    order of the listing and before it is known whether any request fails;
    the tasks of the batch fetch no message. *)
Theorem every_listed_message_is_fetched_once rt w sch st refs :
  on_list w query 50 = inr (Some refs) ->
  List.filter (fun ev => isGet (what ev)) (pollEmails rt w sch st).2
  = map (fun msg => Ev Poll (Op (MessagesGet (r_id msg) "full"))) refs.
Proof.
  intros Hlist. unfold pollEmails. rewrite Hlist. cbn [default from_option id].
  destruct refs as [|msg rest]; [done|]. cbn [id].
  assert (List.filter (fun ev => isGet (what ev))
            (map (fun msg => Ev Poll (Op (fetchOf msg))) (msg :: rest))
          = map (fun msg => Ev Poll (Op (MessagesGet (r_id msg) "full")))
              (msg :: rest)) as Hfetches.
  { apply filter_all, Forall_forall. intros ev Hin.
    by apply list_elem_of_fmap in Hin as (ref & -> & _). }
  destruct (fetchAll w sch (msg :: rest)) as [e|fulls]; cbn [snd].
  - change (Ev Poll (Op listing) :: ?l) with ([Ev Poll (Op listing)] ++ l).
    rewrite !List.filter_app, Hfetches. cbn. by rewrite app_nil_r.
  - change (Ev Poll (Op listing) :: ?l) with ([Ev Poll (Op listing)] ++ l).
    rewrite !List.filter_app, Hfetches.
    rewrite (filter_none _ _ _ (fun a H => H)
               (batch_no_fetch rt w sch fulls st)).
    cbn. by rewrite app_nil_r.
Qed.

Lemma every_listed_message_is_fetched_once_witness :
  on_list firstFetchFails query 50
  = inr (Some [MessageRef "m1" "t1"; MessageRef "m5" "t5"])
  /\ List.filter (fun ev => isGet (what ev))
       (pollEmails rt0 firstFetchFails inOrder ∅).2
     = [Ev Poll (Op (MessagesGet "m1" "full"));
        Ev Poll (Op (MessagesGet "m5" "full"))].
Proof.
  split; [reflexivity|].
  exact (every_listed_message_is_fetched_once rt0 firstFetchFails inOrder ∅
           [MessageRef "m1" "t1"; MessageRef "m5" "t5"] eq_refl).
Defined.

Lemma firstRejection_none {A} (rs : list (result A)) :
  firstRejection rs = None <-> rs = map inr (fulfilled rs).
Proof.
  induction rs as [|[e|a] rs IH]; cbn [firstRejection fulfilled map].
  - done.
  - split; [done|]. intros H. by destruct (fulfilled rs).
  - rewrite IH. split; [intros H; by f_equal|by intros [= H]].
Qed.

Lemma fulfilled_inr {A} (l : list A) : fulfilled (map inr l) = l.
Proof. induction l as [|a l IH]; [done|]. cbn. by rewrite IH. Qed.

Lemma promiseAll_inr {A} order (rs : list (result A)) l :
  promiseAll order rs = inr l <-> rs = map inr l.
Proof.
  unfold promiseAll. split.
  - destruct (firstRejection rs) as [e|] eqn:Hr; [done|].
    intros [= <-]. by apply firstRejection_none.
  - intros ->.
    assert (firstRejection (map (@inr error A) l) = None) as ->.
    { apply firstRejection_none. by rewrite fulfilled_inr. }
    by rewrite fulfilled_inr.
Qed.

(** X19.  The batch of a cycle holds one full message per listed message,
    in the order of the listing, each the answer to the fetch of the listed
    message at the same index, whatever the order in which the fetches
    settle. *)
Theorem batch_holds_the_listed_messages_in_order w sch fulls :
  fetchedMessages w sch = Some fulls ->
  exists refs,
    on_list w query 50 = inr (Some refs)
    /\ map (fun msg => on_get w (r_id msg) "full") refs = map inr fulls.
Proof.
  unfold fetchedMessages, fetchAll.
  destruct (on_list w query 50) as [e|[refs|]]; try done.
  cbn [default from_option id]. destruct refs as [|msg rest]; [done|].
  cbn [id].
  destruct (promiseAll _ _) as [e|fulls'] eqn:Hp; [done|].
  intros [= <-]. exists (msg :: rest). split; [done|].
  by apply promiseAll_inr in Hp.
Qed.

Lemma batch_holds_the_listed_messages_in_order_witness :
  fetchedMessages twoRequests alternating = Some [refundRequest; orderStatus]
  /\ exists refs,
       on_list twoRequests query 50 = inr (Some refs)
       /\ map (fun msg => on_get twoRequests (r_id msg) "full") refs
          = map inr [refundRequest; orderStatus].
Proof.
  split; [reflexivity|].
  exact (batch_holds_the_listed_messages_in_order twoRequests alternating
           [refundRequest; orderStatus] eq_refl).
Defined.

(** ** The two readings of the subject *)

Lemma find_first_head {A} (f : A -> bool) l :
  find_first f l = head (List.filter f l).
Proof.
  induction l as [|x l IH]; [done|]. cbn. by destruct (f x).
Qed.

Lemma find_first_none {A} (f : A -> bool) l :
  Forall (fun x => f x = false) l -> find_first f l = None.
Proof. induction 1 as [|x l Hx _ IH]; [done|]. cbn. by rewrite Hx. Qed.

(** X17.  [pollEmails] reads the subject off the first [Subject] header and
    [processEmail] off the last; for a message with at most one header of
    that name, the two readings agree, so a message admitted for its
    subject passes the subject guard of [processEmail]. *)
Theorem single_subject_header_is_read_alike m :
  (length (headersNamed "Subject" (pl_headers (m_payload m))) <= 1)%nat ->
  subjectOf m = originalSubject m.
Proof.
  intros Hlen. unfold subjectOf, originalSubject.
  rewrite find_first_head, extractHeaders_lookup.
  change (includes keptHeaders "Subject") with true. cbn iota.
  unfold lastValue. fold (headersNamed "Subject" (pl_headers (m_payload m))).
  destruct (headersNamed "Subject" (pl_headers (m_payload m))) as [|h [|h' l]];
    [done|done|].
  cbn in Hlen. lia.
Qed.

Lemma single_subject_header_is_read_alike_witness :
  (length (headersNamed "Subject" (pl_headers (m_payload refundRequest)))
   <= 1)%nat
  /\ subjectOf refundRequest = originalSubject refundRequest.
Proof.
  assert (length (headersNamed "Subject" (pl_headers (m_payload refundRequest)))
          <= 1)%nat as H by (vm_compute; lia).
  split; [exact H|].
  exact (single_subject_header_is_read_alike refundRequest H).
Defined.

(** ** Replies to messages that lack a header *)

(** X18.  A reply to a message without a [From] header is addressed to the
    text [undefined], and a reply to a message without a Message-ID header
    (in any letter case) carries the text [null] in its [In-Reply-To] and
    [References] lines: [processEmail] sends it all the same. *)
Theorem reply_to_a_message_without_sender_or_id rt w m st raw tid :
  Op (MessagesSend raw tid) ∈ traceOf (exec w (processEmail rt m) st) ->
  exists lines,
    raw = base64url rt (String.concat nl lines)
    /\ (headersNamed "From" (pl_headers (m_payload m)) = [] ->
        lines !! 1%nat = Some "To: undefined"%string)
    /\ (Forall (fun h => toLowerCase (h_name h) <> "message-id"%string)
          (pl_headers (m_payload m)) ->
        lines !! 3%nat = Some "In-Reply-To: null"%string
        /\ lines !! 4%nat = Some "References: null"%string).
Proof.
  intros Hin. destruct (send_in_processEmail _ _ _ _ _ _ Hin) as (text & -> & _).
  exists
    (replyLines (originalSender m) (originalSubject m) text (messageIdOf m)).
  split; [done|]. split.
  - intros Hnone. unfold originalSender.
    rewrite extractHeaders_lookup.
    change (includes keptHeaders "From") with true. cbn iota.
    unfold lastValue. by rewrite Hnone.
  - intros Hnone.
    assert (messageIdOf m = None) as ->; [|done].
    unfold messageIdOf. rewrite find_first_none; [done|].
    eapply Forall_impl; [exact Hnone|]. intros h Hh.
    by apply String.eqb_neq.
Qed.

Lemma reply_to_a_message_without_sender_or_id_witness :
  Op (MessagesSend
        (base64url rt0
           (rawMessage None "Analysis: who am I" clarifyText None)) "t10")
    ∈ traceOf (exec anonymousAsked (processEmail rt0 anonymousRequest) ∅)
  /\ exists lines,
       base64url rt0 (rawMessage None "Analysis: who am I" clarifyText None)
       = base64url rt0 (String.concat nl lines)
       /\ lines !! 1%nat = Some "To: undefined"%string
       /\ lines !! 3%nat = Some "In-Reply-To: null"%string.
Proof.
  assert (Op (MessagesSend
                (base64url rt0
                   (rawMessage None "Analysis: who am I" clarifyText None))
                "t10")
            ∈ traceOf (exec anonymousAsked (processEmail rt0 anonymousRequest) ∅))
    as H.
  { vm_compute. apply list_elem_of_In. right. left. reflexivity. }
  split; [exact H|].
  destruct (reply_to_a_message_without_sender_or_id rt0 anonymousAsked
              anonymousRequest ∅ _ _ H) as (lines & Hraw & Hfrom & Hid).
  exists lines. split; [exact Hraw|]. split.
  - apply Hfrom. reflexivity.
  - apply Hid. repeat constructor. discriminate.
Defined.

(** ** Successive emails of a thread *)

(** X16.  After an email whose clarification reply was sent, a later email
    of the same thread that is processed and understood removes the thread
    from the store, which is then the store before the first email without
    the thread; one that is asked back in turn, the reply being sent, makes
    its own id the [lastProcessedEmailId] of the thread. *)
Theorem later_email_resolves_or_renews_the_thread
    rt w1 w2 m1 m2 st email1 text1 email2 text2 :
  extracted rt w1 m1 = inr email1 ->
  startsWith (subjectIn email1) "Analysis:" = true ->
  classification w1 email1 = inr text1 ->
  startsWith text1 "Clarify:" = true ->
  sendOutcome rt w1 m1 email1 text1 = inr tt ->
  m_threadId m2 = m_threadId m1 ->
  extracted rt w2 m2 = inr email2 ->
  startsWith (subjectIn email2) "Analysis:" = true ->
  classification w2 email2 = inr text2 ->
  let st1 := threadsAfter (exec w1 (processEmail rt m1) st) in
  let st2 := threadsAfter (exec w2 (processEmail rt m2) st1) in
  st1 !! m_threadId m1 = Some (ThreadRecord (m_id m1))
  /\ (startsWith text2 "Clarify:" = false ->
      st2 = delete (m_threadId m1) st)
  /\ (startsWith text2 "Clarify:" = true ->
      sendOutcome rt w2 m2 email2 text2 = inr tt ->
      st2 = <[m_threadId m1 := ThreadRecord (m_id m2)]> st).
Proof.
  intros He1 Hs1 Hc1 Hk1 Hsend1 Htid He2 Hs2 Hc2 st1 st2.
  destruct (extracted_fields _ _ _ _ He1) as (Hid1 & Htid1 & _).
  destruct (extracted_fields _ _ _ _ He2) as (Hid2 & Htid2 & _).
  assert (st1 = <[m_threadId m1 := ThreadRecord (m_id m1)]> st) as Hst1.
  { unfold st1, threadsAfter.
    rewrite exec_processEmail, He1, Hs1, Hc1, Hk1, Hsend1. cbn [fst snd].
    by rewrite Hid1, Htid1. }
  split; [rewrite Hst1; apply lookup_insert_eq|].
  unfold st2, threadsAfter.
  rewrite exec_processEmail, He2, Hs2, Hc2, Hid2, Htid2, Htid, Hst1.
  split.
  - intros Hk2. rewrite Hk2. cbn [fst snd]. apply delete_insert_eq.
  - intros Hk2 Hsend2. rewrite Hk2, Hsend2. cbn [fst snd].
    apply insert_insert_eq.
Qed.

Lemma later_email_resolves_or_renews_the_thread_witness :
  (extracted rt0 asksBack refundRequest = inr refundEmail
   /\ startsWith (subjectIn refundEmail) "Analysis:" = true
   /\ classification asksBack refundEmail = inr clarifyText
   /\ startsWith clarifyText "Clarify:" = true
   /\ sendOutcome rt0 asksBack refundRequest refundEmail clarifyText = inr tt
   /\ m_threadId secondRequest = m_threadId refundRequest
   /\ extracted rt0 understands secondRequest = inr secondEmail
   /\ startsWith (subjectIn secondEmail) "Analysis:" = true
   /\ classification understands secondEmail = inr understoodText)
  /\ threadsAfter (exec asksBack (processEmail rt0 refundRequest) ∅)
     !! "t1"%string = Some (ThreadRecord "m1").
Proof.
  assert (extracted rt0 asksBack refundRequest = inr refundEmail
   /\ startsWith (subjectIn refundEmail) "Analysis:" = true
   /\ classification asksBack refundEmail = inr clarifyText
   /\ startsWith clarifyText "Clarify:" = true
   /\ sendOutcome rt0 asksBack refundRequest refundEmail clarifyText = inr tt
   /\ m_threadId secondRequest = m_threadId refundRequest
   /\ extracted rt0 understands secondRequest = inr secondEmail
   /\ startsWith (subjectIn secondEmail) "Analysis:" = true
   /\ classification understands secondEmail = inr understoodText) as H
    by (vm_compute; repeat split; reflexivity).
  split; [exact H|].
  destruct H as (H1 & H2 & H3 & H4 & H5 & H6 & H7 & H8 & H9).
  exact (proj1 (later_email_resolves_or_renews_the_thread rt0 asksBack
                  understands refundRequest secondRequest ∅ refundEmail
                  clarifyText secondEmail understoodText
                  H1 H2 H3 H4 H5 H6 H7 H8 H9)).
Defined.

(** ** The cycle: one message among the others *)

(** X21.  Whatever the schedule, and whatever becomes of the other
    messages of the batch (a task that rejects does not stop the others),
    the operations a cycle performs for a message are exactly, and in the
    same order, those of its callback (the admission test, then
    [processEmail]) run alone from the store the cycle started with. *)
Theorem operations_for_a_message_are_those_of_its_callback_alone
    rt w sch st fulls i m :
  fetchedMessages w sch = Some fulls ->
  fulls !! i = Some m ->
  eventsOf i (pollEmails rt w sch st).2
  = traceOf (exec w (eligibleTask rt m) st).
Proof. apply cycle_projection. Qed.

Lemma operations_for_a_message_are_those_of_its_callback_alone_witness :
  (fetchedMessages twoRequests alternating = Some [refundRequest; orderStatus]
   /\ [refundRequest; orderStatus] !! 1%nat = Some orderStatus)
  /\ eventsOf 1 (pollEmails rt0 twoRequests alternating ∅).2
     = traceOf (exec twoRequests (eligibleTask rt0 orderStatus) ∅).
Proof.
  split; [split; reflexivity|].
  exact (operations_for_a_message_are_those_of_its_callback_alone rt0
           twoRequests alternating ∅ [refundRequest; orderStatus] 1
           orderStatus eq_refl eq_refl).
Defined.

Lemma processEmail_trace_any_store rt w m st st' :
  traceOf (exec w (processEmail rt m) st)
  = traceOf (exec w (processEmail rt m) st').
Proof.
  apply exec_noHas.
  eapply ops_all_impl; [apply taskOp_noHas|apply processEmail_ops].
Qed.

(** X20.  For a message whose subject starts with ["Analysis:"], what a
    cycle does does not depend on the store: a message that a cycle has
    left unread is handled again by a later cycle in the same world with
    the same operations, the send of the clarification included. *)
Theorem admitted_by_subject_is_handled_whatever_the_store
    rt w sch sch' st st' fulls i m :
  fetchedMessages w sch = Some fulls ->
  fulls !! i = Some m ->
  startsWith (subjectOf m) "Analysis:" = true ->
  eventsOf i (pollEmails rt w sch st).2
  = eventsOf i (pollEmails rt w sch' st').2.
Proof.
  intros Hf Hm Hs.
  rewrite (cycle_projection rt w sch st fulls i m Hf Hm).
  rewrite (fetchedMessages_any_schedule w sch sch') in Hf.
  rewrite (cycle_projection rt w sch' st' fulls i m Hf Hm).
  rewrite !exec_eligibleTask, Hs. apply processEmail_trace_any_store.
Qed.

Lemma admitted_by_subject_is_handled_whatever_the_store_witness :
  (fetchedMessages markReadFails inOrder = Some [refundRequest]
   /\ [refundRequest] !! 0%nat = Some refundRequest
   /\ startsWith (subjectOf refundRequest) "Analysis:" = true)
  /\ eventsOf 0 (pollEmails rt0 markReadFails inOrder ∅).2
     = eventsOf 0
         (pollEmails rt0 markReadFails inOrder
            (pollEmails rt0 markReadFails inOrder ∅).1).2.
Proof.
  split; [repeat split; reflexivity|].
  exact (admitted_by_subject_is_handled_whatever_the_store rt0 markReadFails
           inOrder inOrder ∅ (pollEmails rt0 markReadFails inOrder ∅).1
           [refundRequest] 0 refundRequest eq_refl eq_refl eq_refl).
Defined.

(** X22.  In a cycle, under any schedule, a message admitted for its
    subject, alone of its thread in the batch, extracted and classified,
    leaves its thread tracked with its own id when the classification asks
    for a clarification and the reply is sent, and untracked when the
    classification does not start with the marker. *)
Theorem cycle_tracks_or_resolves_the_thread
    rt w sch st fulls i m email text :
  fetchedMessages w sch = Some fulls ->
  fulls !! i = Some m ->
  (forall j m', fulls !! j = Some m' -> j <> i ->
                m_threadId m' <> m_threadId m) ->
  startsWith (subjectOf m) "Analysis:" = true ->
  extracted rt w m = inr email ->
  startsWith (subjectIn email) "Analysis:" = true ->
  classification w email = inr text ->
  (startsWith text "Clarify:" = true ->
   sendOutcome rt w m email text = inr tt ->
   (pollEmails rt w sch st).1 !! m_threadId m
   = Some (ThreadRecord (m_id m)))
  /\ (startsWith text "Clarify:" = false ->
      (pollEmails rt w sch st).1 !! m_threadId m = None).
Proof.
  intros Hf Hm Hothers Hsubj He Hs Hc.
  destruct (extracted_fields _ _ _ _ He) as (Hid & Htid & _).
  assert ((pollEmails rt w sch st).1 !! m_threadId m
          = threadsAfter (exec w (processEmail rt m) st) !! m_threadId m)
    as ->.
  { rewrite (cycle_store _ _ _ _ _ Hf), exec_replay.
    assert (traceOf (exec w (processEmail rt m) st)
            = eventsOf i (log (runBatch rt w sch fulls st))) as ->.
    { rewrite (batch_projection rt w sch fulls st i m Hm).
      by rewrite exec_eligibleTask, Hsubj. }
    apply replay_projection; [|done].
    intros ev Hin.
    destruct (batch_events _ _ _ _ _ _ Hin)
      as [[e ->]|(j & m' & Hw & Hm' & Ha)]; [by right|].
    destruct (decide (j = i)) as [->|Hne]; [by left|]. right. intros Hwr.
    apply (Hothers j m' Hm' Hne). symmetry. by eapply write_in_eligibleTask. }
  unfold threadsAfter. rewrite exec_processEmail, He, Hs, Hc, Hid, Htid.
  split.
  - intros Hk Hsend. rewrite Hk, Hsend. cbn [fst snd]. apply lookup_insert_eq.
  - intros Hk. rewrite Hk. cbn [fst snd]. apply lookup_delete_eq.
Qed.

Lemma cycle_tracks_or_resolves_the_thread_witness :
  (fetchedMessages twoRequests alternating = Some [refundRequest; orderStatus]
   /\ [refundRequest; orderStatus] !! 0%nat = Some refundRequest
   /\ (forall j m',
         [refundRequest; orderStatus] !! j = Some m' -> j <> 0%nat ->
         m_threadId m' <> m_threadId refundRequest)
   /\ startsWith (subjectOf refundRequest) "Analysis:" = true
   /\ extracted rt0 twoRequests refundRequest = inr refundEmail
   /\ startsWith (subjectIn refundEmail) "Analysis:" = true
   /\ classification twoRequests refundEmail = inr clarifyText)
  /\ (pollEmails rt0 twoRequests alternating ∅).1 !! "t1"%string
     = Some (ThreadRecord "m1").
Proof.
  assert (forall j m',
            [refundRequest; orderStatus] !! j = Some m' -> j <> 0%nat ->
            m_threadId m' <> m_threadId refundRequest) as H.
  { intros [|[|j]] m' Hm Hj; try done. by injection Hm as <-. }
  assert (extracted rt0 twoRequests refundRequest = inr refundEmail) as He
    by (vm_compute; reflexivity).
  split; [repeat split; try reflexivity; try exact H; exact He|].
  exact (proj1 (cycle_tracks_or_resolves_the_thread rt0 twoRequests
                  alternating ∅ [refundRequest; orderStatus] 0 refundRequest
                  refundEmail clarifyText eq_refl eq_refl H eq_refl He
                  eq_refl eq_refl) eq_refl eq_refl).
Defined.

(** ** The subject and the threading headers of a reply *)








